(** * sketch-03: a particle field with proximity lines, and its MIDI variant

    Shallow embedding of the two sketches of the repository:

    - [Sketch03]     embeds [src/sketch-03.js]      (fixed lifespan, steering);
    - [Sketch03Midi] embeds [src/unnamed/part_000]  (random lifespan, linear
      drift, Web MIDI note events).

    JavaScript numbers are written once, against the interface [JSNumber],
    and read at two instances: [binary64] (IEEE 754 doubles, the kernel's
    primitive floats: what the engine computes, bit for bit) and [ideal]
    (real numbers: the arithmetic the sketch is written for). *)

From Stdlib Require Import ZArith List Bool Arith Lia.
From Stdlib Require Import Reals Lra.
From Stdlib Require PrimFloat Uint63.
Import ListNotations.

Set Implicit Arguments.
Set Warnings "-abstract-large-number".

(* ------------------------------------------------------------------ *)
(** ** JavaScript numbers *)

Declare Scope js_scope.
Delimit Scope js_scope with js.

Class JSNumber (T : Type) : Type := {
  ofZ : Z -> T;                 (* an integer literal *)
  neg : T -> T;                 (* -a *)
  add : T -> T -> T;            (* a + b *)
  sub : T -> T -> T;            (* a - b *)
  mul : T -> T -> T;            (* a * b *)
  div : T -> T -> T;            (* a / b *)
  lt : T -> T -> bool;          (* a < b *)
  le : T -> T -> bool;          (* a <= b *)
  strictEq : T -> T -> bool;    (* a === b *)
  Math_sqrt : T -> T;
  Math_sin : T -> T;
  Math_cos : T -> T;
  Math_round : T -> T
}.

Notation "a + b" := (add a b) : js_scope.
Notation "a - b" := (sub a b) : js_scope.
Notation "a * b" := (mul a b) : js_scope.
Notation "a / b" := (div a b) : js_scope.
Notation "- a" := (neg a) : js_scope.
Notation "a <? b" := (lt a b) (at level 70, no associativity) : js_scope.
Notation "a <=? b" := (le a b) (at level 70, no associativity) : js_scope.
Notation "a >? b" := (lt b a) (at level 70, no associativity) : js_scope.
Notation "a >=? b" := (le b a) (at level 70, no associativity) : js_scope.
Notation "a === b" := (strictEq a b) (at level 70, no associativity) : js_scope.

(** A decimal literal [m * 10^-e], such as [0.005 = decimal 5 3].  Both
    operands are exact and the division rounds correctly, so at
    [binary64] this is the double the engine reads the literal as. *)
Definition decimal {T} `{JSNumber T} (m : Z) (e : nat) : T :=
  (ofZ m / ofZ (10 ^ Z.of_nat e))%js.

(** *** IEEE 754 binary64 *)

Module Binary64.

Import PrimFloat.
Local Open Scope float_scope.

Definition float : Set := PrimFloat.float.

Definition of_Z (z : Z) : float :=
  match z with
  | Z0 => PrimFloat.zero
  | Zpos _ => PrimFloat.of_uint63 (Uint63.of_Z z)
  | Zneg p => PrimFloat.opp (PrimFloat.of_uint63 (Uint63.of_Z (Zpos p)))
  end.

Definition two52 : float := 4503599627370496.

(** Nearest integer (ties to even) of [0 <= t < 2^52]. *)
Definition rint (t : float) : float :=
  PrimFloat.sub (PrimFloat.add t two52) two52.

Definition floor (x : float) : float :=
  if PrimFloat.leb PrimFloat.zero x then
    let r := rint x in
    if PrimFloat.ltb x r then PrimFloat.sub r PrimFloat.one else r
  else
    let t := PrimFloat.opp x in
    let r := rint t in
    PrimFloat.opp (if PrimFloat.ltb r t then PrimFloat.add r PrimFloat.one else r).

(** [Math.round]: the integer closest to [x], ties towards +infinity;
    NaN, the infinities and every double of magnitude [>= 2^52]
    (already an integer) are returned as they are. *)
Definition round (x : float) : float :=
  if PrimFloat.ltb (PrimFloat.abs x) two52 then
    let f := floor x in
    if PrimFloat.leb 0.5 (PrimFloat.sub x f)
    then PrimFloat.add f PrimFloat.one else f
  else x.

(** A fixed engine: [sin] and [cos] by argument reduction and a Taylor
    polynomial.  Closed examples run with it; the theorems hold for every
    engine. *)
Definition twoPi : float := 0x1.921fb54442d18p+2.

Definition reduce (x : float) : float :=
  x - twoPi * floor (x / twoPi + 0.5).

Definition sin (x : float) : float :=
  let r := reduce x in
  let s := r * r in
  r * (1 - s / 6 * (1 - s / 20 * (1 - s / 42 * (1 - s / 72 * (1 - s / 110 *
      (1 - s / 156 * (1 - s / 210 * (1 - s / 272 * (1 - s / 342 *
      (1 - s / 420)))))))))).

Definition cos (x : float) : float :=
  let r := reduce x in
  let s := r * r in
  1 - s / 2 * (1 - s / 12 * (1 - s / 30 * (1 - s / 56 * (1 - s / 90 *
      (1 - s / 132 * (1 - s / 182 * (1 - s / 240 * (1 - s / 306 *
      (1 - s / 380))))))))).

End Binary64.

(** [Math.sin] and [Math.cos] are implementation-approximated in
    ECMAScript: the instance takes the engine's two functions. *)
Definition binary64 (fsin fcos : Binary64.float -> Binary64.float) :
  JSNumber Binary64.float := {|
  ofZ := Binary64.of_Z;
  neg := PrimFloat.opp;
  add := PrimFloat.add;
  sub := PrimFloat.sub;
  mul := PrimFloat.mul;
  div := PrimFloat.div;
  lt := PrimFloat.ltb;
  le := PrimFloat.leb;
  strictEq := PrimFloat.eqb;
  Math_sqrt := PrimFloat.sqrt;
  Math_sin := fsin;
  Math_cos := fcos;
  Math_round := Binary64.round
|}.

Definition js64 : JSNumber Binary64.float := binary64 Binary64.sin Binary64.cos.

(** *** Real numbers *)

Module Ideal.

Definition ltb (a b : R) : bool := if Rlt_dec a b then true else false.
Definition leb (a b : R) : bool := if Rle_dec a b then true else false.
Definition eqb (a b : R) : bool := if Req_dec_T a b then true else false.

(** [Math.round]: floor (x + 1/2). *)
Definition round (x : R) : R := IZR (Int_part (x + / 2)).

End Ideal.

Definition ideal : JSNumber R := {|
  ofZ := IZR;
  neg := Ropp;
  add := Rplus;
  sub := Rminus;
  mul := Rmult;
  div := Rdiv;
  lt := Ideal.ltb;
  le := Ideal.leb;
  strictEq := Ideal.eqb;
  Math_sqrt := R_sqrt.sqrt;
  Math_sin := sin;
  Math_cos := cos;
  Math_round := Ideal.round
|}.

(* ------------------------------------------------------------------ *)
(** ** The run-time shared by the two sketches *)

(** What a frame does to the outside, in program order: the canvas
    primitives it paints (the 2D-context calls of one primitive are one
    event), the MIDI messages it sends, and the elements it splices out of
    the [points] array. *)
Inductive Effect (T : Type) : Type :=
| FillRect (r g b a : T) (x y w h : T)       (* fillStyle = rgba(r,g,b,a); fillRect *)
| StrokeLine (alpha lineWidth : T) (x1 y1 x2 y2 : T)
                                             (* strokeStyle, lineWidth, moveTo, lineTo, stroke *)
| FillCircle (alpha : T) (cx cy radius : T)  (* translate, fillStyle, arc, fill *)
| Send (data : list T)                       (* midiOutput.send(data) *)
| Splice (index : nat).                      (* points.splice(index, 1) *)

Arguments Splice {T} index.

(** The sketch's mutable state: the [points] array, the generator behind
    [random] (the stream of its [value()] results and how many were
    consumed), and the effects performed so far. *)
Record World (T P : Type) : Type := {
  points : list P;
  rng : nat -> T;
  cursor : nat;
  trace : list (Effect T)
}.

Arguments points {T P} _.
Arguments rng {T P} _.
Arguments cursor {T P} _.
Arguments trace {T P} _.

(** State-passing computations over a [World]. *)
Definition M (T P A : Type) : Type := World T P -> A * World T P.

Definition ret {T P A} (a : A) : M T P A := fun w => (a, w).

Definition bind {T P A B} (m : M T P A) (k : A -> M T P B) : M T P B :=
  fun w => let (a, w') := m w in k a w'.

Definition exec {T P A} (m : M T P A) (w : World T P) : World T P := snd (m w).

Declare Scope m_scope.
Delimit Scope m_scope with m.
Notation "v <- m ;; k" := (bind m (fun v => k))
  (at level 61, m at next level, right associativity) : m_scope.
Notation "m ;; k" := (bind m (fun _ => k))
  (at level 61, right associativity) : m_scope.

Section Runtime.

Context {T P : Type} `{JSNumber T}.

Local Open Scope js_scope.
Local Open Scope m_scope.

(** *** The array *)

Definition emit (e : Effect T) : M T P unit :=
  fun w => (tt, {| points := points w; rng := rng w; cursor := cursor w;
                   trace := trace w ++ [e] |}).

Definition getPoints : M T P (list P) := fun w => (points w, w).

Definition setPoints (l : list P) : M T P unit :=
  fun w => (tt, {| points := l; rng := rng w; cursor := cursor w;
                   trace := trace w |}).

(** [points.push(p)] *)
Definition push (p : P) : M T P unit :=
  l <- getPoints ;; setPoints (l ++ [p]).

(** The object at [index] after the callback has mutated its fields. *)
Fixpoint store (index : nat) (p : P) (l : list P) : list P :=
  match l, index with
  | [], _ => []
  | _ :: l', O => p :: l'
  | q :: l', S i => q :: store i p l'
  end.

(** [l.splice(index, 1)] on the array itself. *)
Fixpoint splice1 (index : nat) (l : list P) : list P :=
  match l, index with
  | [], _ => []
  | _ :: l', O => l'
  | q :: l', S i => q :: splice1 i l'
  end.

Definition splice (index : nat) : M T P unit :=
  l <- getPoints ;; setPoints (splice1 index l) ;; emit (Splice index).

(** [Array.prototype.forEach]: the length is read once, before the first
    call; index [k] is visited when the array still has it, with the
    element it holds at that moment. *)
Fixpoint forEach_from (callback : P -> nat -> M T P unit) (len k : nat)
  : M T P unit :=
  match len with
  | O => ret tt
  | S len' =>
      l <- getPoints ;;
      match nth_error l k with
      | Some p => callback p k
      | None => ret tt
      end ;;
      forEach_from callback len' (S k)
  end.

Definition forEach (callback : P -> nat -> M T P unit) : M T P unit :=
  l <- getPoints ;; forEach_from callback (length l) 0.

(** *** canvas-sketch-util/random *)

(** [random.value()]: the next number of the generator, in [0, 1). *)
Definition random_value : M T P T :=
  fun w => (rng w (cursor w),
            {| points := points w; rng := rng w; cursor := S (cursor w);
               trace := trace w |}).

(** [random.range(min, max)] *)
Definition random_range (min max : T) : M T P T :=
  v <- random_value ;; ret (v * (max - min) + min).

(** [random.chance(n)] *)
Definition random_chance (n : T) : M T P bool :=
  v <- random_value ;; ret (v <? n).

End Runtime.

Section MathUtil.

Context {T : Type} `{JSNumber T}.
Local Open Scope js_scope.

(** Modelled from the spec: [math.mapRange] of canvas-sketch-util is not
    under src/; the spec reads it as the linear interpolation that takes
    [inputMin, inputMax] to [outputMin, outputMax]. *)
Definition math_mapRange (value inputMin inputMax outputMin outputMax : T) : T :=
  (value - inputMin) / (inputMax - inputMin) * (outputMax - outputMin) + outputMin.

(** Modelled from the spec: [math.clamp] of canvas-sketch-util is not
    under src/; the spec's velocity clamping, to [min, max]. *)
Definition math_clamp (value min max : T) : T :=
  if value <? min then min else if value >? max then max else value.

End MathUtil.

(** [class Vector]: both files declare it; [part_000] keeps only the
    constructor and [getDistance]. *)
Module Vector.
Section Vector.

Context {T : Type} `{JSNumber T}.
Local Open Scope js_scope.

Record t : Type := new { x : T; y : T }.

Definition getDistance (this v : t) : T :=
  let dx := x this - x v in
  let dy := y this - y v in
  Math_sqrt (dx * dx + dy * dy).

Definition subtract (this v : t) : t := new (x this - x v) (y this - y v).

Definition add (this v : t) : t := new (x this + x v) (y this + y v).

Definition scale (this : t) (scalar : T) : t :=
  new (x this * scalar) (y this * scalar).

Definition length (this : t) : T :=
  Math_sqrt (x this * x this + y this * y this).

Definition normalize (this : t) : t :=
  let len := length this in new (x this / len) (y this / len).

End Vector.
Arguments t T : clear implicits.
End Vector.

(* ------------------------------------------------------------------ *)
(** ** src/unnamed/part_000: the MIDI sketch *)

Module Sketch03Midi.
Section Sketch.

Context {T : Type} `{JSNumber T}.
Local Open Scope js_scope.
Local Open Scope m_scope.

(** [midiOutput]: unset until [onMIDISuccess] finds an output port. *)
Definition MIDIOutput : Type := nat.

(** [onMIDISuccess]: every port of [midiAccess.outputs] is assigned in
    turn. *)
Definition onMIDISuccess (outputs : list MIDIOutput)
    (midiOutput : option MIDIOutput) : option MIDIOutput :=
  fold_left (fun _ output => Some output) outputs midiOutput.

Definition truthy (midiOutput : option MIDIOutput) : bool :=
  match midiOutput with Some _ => true | None => false end.

Definition fps : T := ofZ 60.                        (* settings.fps *)
Definition INITIAL_POINTS : nat := 300.
Definition THOUGHTS_PER_SECOND : T := decimal 5 1.   (* 0.5 *)
Definition POINT_LIFESPAN_MIN : T := ofZ 60.
Definition POINT_LIFESPAN_MAX : T := ofZ 180.
Definition MIN_ACTIVE_POINTS : nat := 150.
Definition NOTE_MIN : T := ofZ 36.
Definition NOTE_MAX : T := ofZ 72.
Definition VELOCITY_MIN : T := ofZ 40.
Definition VELOCITY_MAX : T := ofZ 100.

Record Point : Type := {
  pos : Vector.t T;
  vel : Vector.t T;
  radius : T;
  age : T;
  lifespan : T
}.

Local Abbreviation Frame := (M T Point).

(** [new Point(x, y)] *)
Definition newPoint (x y : T) : Frame Point :=
  vx <- random_range (- decimal 2 1) (decimal 2 1) ;;
  vy <- random_range (- decimal 2 1) (decimal 2 1) ;;
  life <- random_range POINT_LIFESPAN_MIN POINT_LIFESPAN_MAX ;;
  ret {| pos := Vector.new x y; vel := Vector.new vx vy;
         radius := ofZ 3; age := ofZ 0; lifespan := life |}.

(** [Point.prototype.update] *)
Definition update (this : Point) (width height time : T) : Point :=
  let px := Vector.x (pos this) + Vector.x (vel this) in
  let py := Vector.y (pos this) + Vector.y (vel this) in
  let px := if px <? ofZ 0 then width else px in
  let px := if px >? width then ofZ 0 else px in
  let py := if py <? ofZ 0 then height else py in
  let py := if py >? height then ofZ 0 else py in
  {| pos := Vector.new px py; vel := vel this; radius := radius this;
     age := age this; lifespan := lifespan this |}.

(** [Point.prototype.draw] *)
Definition draw (this : Point) : Effect T :=
  let alpha := math_mapRange (age this) (ofZ 0) (lifespan this) (ofZ 1) (ofZ 0) in
  FillCircle alpha (Vector.x (pos this)) (Vector.y (pos this)) (radius this).

(** The file's own [mapRange], which rounds. *)
Definition mapRange (value inMin inMax outMin outMax : T) : T :=
  Math_round ((value - inMin) * (outMax - outMin) / (inMax - inMin) + outMin).

Definition setAge (this : Point) (a : T) : Point :=
  {| pos := pos this; vel := vel this; radius := radius this;
     age := a; lifespan := lifespan this |}.

(** A field write on the object that sits at [index]. *)
Definition mutate (index : nat) (p : Point) : Frame unit :=
  l <- getPoints ;; setPoints (store index p l).

(** [while (points.length < MIN_ACTIVE_POINTS)]: each turn adds one
    point, so [MIN_ACTIVE_POINTS] turns are always enough. *)
Fixpoint topUp (fuel : nat) (width height : T) : Frame unit :=
  match fuel with
  | O => ret tt
  | S fuel' =>
      l <- getPoints ;;
      if Nat.ltb (List.length l) MIN_ACTIVE_POINTS then
        x <- random_range (ofZ 0) width ;;
        y <- random_range (ofZ 0) height ;;
        p <- newPoint x y ;;
        push p ;;
        topUp fuel' width height
      else ret tt
  end.

(** [if (random.chance(THOUGHTS_PER_SECOND / 60))] *)
Definition spawn (width height : T) : Frame unit :=
  c <- random_chance (THOUGHTS_PER_SECOND / ofZ 60) ;;
  if c then
    x <- random_range (ofZ 0) width ;;
    y <- random_range (ofZ 0) height ;;
    p <- newPoint x y ;;
    push p
  else ret tt.

Definition dynamicThreshold (time : T) : T :=
  math_mapRange (Math_sin (time * decimal 5 1)) (- ofZ 1) (ofZ 1) (ofZ 100) (ofZ 150).

(** The body of the inner loop for the pair [(p1, p2)]. *)
Definition connect (dynamicThreshold : T) (p1 p2 : Point) : list (Effect T) :=
  let dist := Vector.getDistance (pos p1) (pos p2) in
  if dist >? dynamicThreshold then []
  else
    let alpha := math_mapRange dist (ofZ 0) dynamicThreshold (decimal 6 1) (ofZ 0) in
    [StrokeLine alpha
       (math_mapRange dist (ofZ 0) dynamicThreshold (decimal 15 1) (decimal 5 1))
       (Vector.x (pos p1)) (Vector.y (pos p1))
       (Vector.x (pos p2)) (Vector.y (pos p2))].

(** [for i] / [for j = i + 1]: every pair [i < j], row by row. *)
Fixpoint connections (dynamicThreshold : T) (l : list Point) : list (Effect T) :=
  match l with
  | [] => []
  | p1 :: rest =>
      flat_map (connect dynamicThreshold p1) rest
        ++ connections dynamicThreshold rest
  end.

Definition emitAll (es : list (Effect T)) : Frame unit :=
  fun w => (tt, {| points := points w; rng := rng w; cursor := cursor w;
                   trace := trace w ++ es |}).

(** The callback of [points.forEach]. *)
Definition callback (midiOutput : option MIDIOutput) (width height time : T)
    (point : Point) (index : nat) : Frame unit :=
  let point1 := update point width height time in
  mutate index point1 ;;
  emit (draw point1) ;;
  let midiNote := mapRange (Vector.x (pos point1)) (ofZ 0) width NOTE_MIN NOTE_MAX in
  let velocity :=
    mapRange (Vector.y (pos point1)) (ofZ 0) height VELOCITY_MIN VELOCITY_MAX in
  (if (age point1 === ofZ 0) && truthy midiOutput
   then emit (Send [ofZ 144; midiNote; velocity]) else ret tt) ;;
  let point2 := setAge point1 (age point1 + ofZ 1 / fps) in
  mutate index point2 ;;
  if (age point2 >=? lifespan point2) && truthy midiOutput
  then emit (Send [ofZ 128; midiNote; ofZ 0]) ;; splice index
  else ret tt.

(** The render function the sketch returns: one frame. *)
Definition render (midiOutput : option MIDIOutput) (width height time : T)
  : Frame unit :=
  emit (FillRect (ofZ 10) (ofZ 2) (ofZ 2) (decimal 2 1)
          (ofZ 0) (ofZ 0) width height) ;;
  topUp MIN_ACTIVE_POINTS width height ;;
  spawn width height ;;
  l <- getPoints ;;
  emitAll (connections (dynamicThreshold time) l) ;;
  forEach (callback midiOutput width height time).

(** The set-up part of [sketch]: [INITIAL_POINTS] random points. *)
Fixpoint initialize (n : nat) (width height : T) : Frame unit :=
  match n with
  | O => ret tt
  | S n' =>
      x <- random_range (ofZ 0) width ;;
      y <- random_range (ofZ 0) height ;;
      p <- newPoint x y ;;
      push p ;;
      initialize n' width height
  end.

Definition sketch (width height : T) : Frame unit :=
  setPoints [] ;; initialize INITIAL_POINTS width height.

(** Successive frames, one per time stamp. *)
Fixpoint frames (midiOutput : option MIDIOutput) (width height : T)
    (times : list T) : Frame unit :=
  match times with
  | [] => ret tt
  | time :: times' =>
      render midiOutput width height time ;;
      frames midiOutput width height times'
  end.

End Sketch.

Arguments Point T : clear implicits.

End Sketch03Midi.

(* ------------------------------------------------------------------ *)
(** ** src/sketch-03.js: the fixed-lifespan sketch *)

Module Sketch03.
Section Sketch.

Context {T : Type} `{JSNumber T}.
Local Open Scope js_scope.
Local Open Scope m_scope.

Definition fps : T := ofZ 60.                        (* settings.fps *)
Definition INITIAL_POINTS : nat := 200.
Definition THOUGHTS_PER_SECOND : T := decimal 8 1.   (* 0.8 *)
Definition POINT_LIFESPAN : T := ofZ 120.
Definition MIN_ACTIVE_POINTS : nat := 150.

Record Point : Type := {
  pos : Vector.t T;
  vel : Vector.t T;
  acc : Vector.t T;
  radius : T;
  age : T
}.

Local Abbreviation Frame := (M T Point).

(** [new Point(x, y)] *)
Definition newPoint (x y : T) : Frame Point :=
  vx <- random_range (- decimal 2 1) (decimal 2 1) ;;
  vy <- random_range (- decimal 2 1) (decimal 2 1) ;;
  ret {| pos := Vector.new x y; vel := Vector.new vx vy;
         acc := Vector.new (ofZ 0) (ofZ 0); radius := ofZ 3; age := ofZ 0 |}.

Definition setVel (this : Point) (v : Vector.t T) : Point :=
  {| pos := pos this; vel := v; acc := acc this; radius := radius this;
     age := age this |}.

Definition setPos (this : Point) (p : Vector.t T) : Point :=
  {| pos := p; vel := vel this; acc := acc this; radius := radius this;
     age := age this |}.

Definition setAge (this : Point) (a : T) : Point :=
  {| pos := pos this; vel := vel this; acc := acc this; radius := radius this;
     age := a |}.

(** [Point.prototype.applyBoundaries] *)
Definition applyBoundaries (this : Point) (width height : T) : Point :=
  let margin := ofZ 100 in
  let px := Vector.x (pos this) in
  let py := Vector.y (pos this) in
  let vx := Vector.x (vel this) in
  let vx := if px <? margin then vx + decimal 1 2 else vx in
  let vx := if px >? width - margin then vx - decimal 1 2 else vx in
  let vy := Vector.y (vel this) in
  let vy := if py <? margin then vy + decimal 1 2 else vy in
  let vy := if py >? height - margin then vy - decimal 1 2 else vy in
  setVel this (Vector.new vx vy).

(** The four wrap-around tests that end [update]. *)
Definition wrap (p : Vector.t T) (width height : T) : Vector.t T :=
  let px := Vector.x p in
  let py := Vector.y p in
  let px := if px <? ofZ 0 then width else px in
  let px := if px >? width then ofZ 0 else px in
  let py := if py <? ofZ 0 then height else py in
  let py := if py >? height then ofZ 0 else py in
  Vector.new px py.

(** [Point.prototype.update] *)
Definition update (this : Point) (width height time : T) : Frame Point :=
  let this := applyBoundaries this width height in
  let vx := Vector.x (vel this)
            + Math_sin (time * decimal 2 1 + Vector.y (pos this) * decimal 5 1)
              * decimal 2 2 in
  let vy := Vector.y (vel this)
            + Math_cos (time * decimal 2 1 + Vector.x (pos this) * decimal 5 1)
              * decimal 2 2 in
  rx <- random_range (- decimal 5 3) (decimal 5 3) ;;
  let vx := vx + rx in
  ry <- random_range (- decimal 5 3) (decimal 5 3) ;;
  let vy := vy + ry in
  let this := setVel this (Vector.new vx vy) in
  let this := setPos this (Vector.add (pos this) (vel this)) in
  let speedLimit := decimal 4 1 in
  let vx := math_clamp (Vector.x (vel this)) (- speedLimit) speedLimit in
  let vy := math_clamp (Vector.y (vel this)) (- speedLimit) speedLimit in
  let this := setVel this (Vector.new vx vy) in
  ret (setPos this (wrap (pos this) width height)).

(** [Point.prototype.draw] *)
Definition draw (this : Point) : Effect T :=
  let alpha := math_mapRange (age this) (ofZ 0) POINT_LIFESPAN (ofZ 1) (ofZ 0) in
  FillCircle alpha (Vector.x (pos this)) (Vector.y (pos this)) (radius this).

(** A field write on the object that sits at [index]. *)
Definition mutate (index : nat) (p : Point) : Frame unit :=
  l <- getPoints ;; setPoints (store index p l).

(** [while (points.length < MIN_ACTIVE_POINTS)]: each turn adds one
    point, so [MIN_ACTIVE_POINTS] turns are always enough. *)
Fixpoint topUp (fuel : nat) (width height : T) : Frame unit :=
  match fuel with
  | O => ret tt
  | S fuel' =>
      l <- getPoints ;;
      if Nat.ltb (List.length l) MIN_ACTIVE_POINTS then
        x <- random_range (ofZ 0) width ;;
        y <- random_range (ofZ 0) height ;;
        p <- newPoint x y ;;
        push p ;;
        topUp fuel' width height
      else ret tt
  end.

(** [if (random.chance(THOUGHTS_PER_SECOND / 60))] *)
Definition spawn (width height : T) : Frame unit :=
  c <- random_chance (THOUGHTS_PER_SECOND / ofZ 60) ;;
  if c then
    x <- random_range (ofZ 0) width ;;
    y <- random_range (ofZ 0) height ;;
    p <- newPoint x y ;;
    push p
  else ret tt.

Definition dynamicThreshold (time : T) : T :=
  math_mapRange (Math_sin (time * decimal 5 1)) (- ofZ 1) (ofZ 1) (ofZ 100) (ofZ 150).

(** The body of the inner loop for the pair [(p1, p2)]. *)
Definition connect (dynamicThreshold : T) (p1 p2 : Point) : list (Effect T) :=
  let dist := Vector.getDistance (pos p1) (pos p2) in
  if dist >? dynamicThreshold then []
  else
    let alpha := math_mapRange dist (ofZ 0) dynamicThreshold (decimal 6 1) (ofZ 0) in
    [StrokeLine alpha
       (math_mapRange dist (ofZ 0) dynamicThreshold (decimal 15 1) (decimal 5 1))
       (Vector.x (pos p1)) (Vector.y (pos p1))
       (Vector.x (pos p2)) (Vector.y (pos p2))].

(** [for i] / [for j = i + 1]: every pair [i < j], row by row. *)
Fixpoint connections (dynamicThreshold : T) (l : list Point) : list (Effect T) :=
  match l with
  | [] => []
  | p1 :: rest =>
      flat_map (connect dynamicThreshold p1) rest
        ++ connections dynamicThreshold rest
  end.

Definition emitAll (es : list (Effect T)) : Frame unit :=
  fun w => (tt, {| points := points w; rng := rng w; cursor := cursor w;
                   trace := trace w ++ es |}).

(** The callback of [points.forEach]. *)
Definition callback (width height time : T) (point : Point) (index : nat)
  : Frame unit :=
  point1 <- update point width height time ;;
  mutate index point1 ;;
  emit (draw point1) ;;
  let point2 := setAge point1 (age point1 + ofZ 1 / fps) in
  mutate index point2 ;;
  if age point2 >=? POINT_LIFESPAN then splice index else ret tt.

(** The render function the sketch returns: one frame. *)
Definition render (width height time : T) : Frame unit :=
  emit (FillRect (ofZ 1) (ofZ 1) (ofZ 1) (decimal 1 1)
          (ofZ 0) (ofZ 0) width height) ;;
  topUp MIN_ACTIVE_POINTS width height ;;
  spawn width height ;;
  l <- getPoints ;;
  emitAll (connections (dynamicThreshold time) l) ;;
  forEach (callback width height time).

(** The set-up part of [sketch]: [INITIAL_POINTS] random points. *)
Fixpoint initialize (n : nat) (width height : T) : Frame unit :=
  match n with
  | O => ret tt
  | S n' =>
      x <- random_range (ofZ 0) width ;;
      y <- random_range (ofZ 0) height ;;
      p <- newPoint x y ;;
      push p ;;
      initialize n' width height
  end.

Definition sketch (width height : T) : Frame unit :=
  setPoints [] ;; initialize INITIAL_POINTS width height.

(** Successive frames, one per time stamp. *)
Fixpoint frames (width height : T) (times : list T) : Frame unit :=
  match times with
  | [] => ret tt
  | time :: times' => render width height time ;; frames width height times'
  end.

End Sketch.

Arguments Point T : clear implicits.

End Sketch03.

(* ------------------------------------------------------------------ *)
(** ** Invariants of state-passing computations *)

Section Invariants.

Context {T P : Type}.

(** [m] keeps the property [I] of the world. *)
Definition preserves {A} (I : World T P -> Prop) (m : M T P A) : Prop :=
  forall w, I w -> I (snd (m w)).

Lemma preserves_ret {A} (I : World T P -> Prop) (a : A) : preserves I (ret a).
Proof. intros w Hw. exact Hw. Qed.

Lemma preserves_bind {A B} (I : World T P -> Prop) (m : M T P A)
    (k : A -> M T P B) :
  preserves I m -> (forall a, preserves I (k a)) -> preserves I (bind m k).
Proof.
  intros Hm Hk w Hw. unfold bind.
  specialize (Hm w Hw). destruct (m w) as [a w']. exact (Hk a w' Hm).
Qed.

Lemma preserves_getPoints (I : World T P -> Prop) : preserves I getPoints.
Proof. intros w Hw. exact Hw. Qed.

Lemma preserves_if {A} (I : World T P -> Prop) (b : bool) (m1 m2 : M T P A) :
  preserves I m1 -> preserves I m2 -> preserves I (if b then m1 else m2).
Proof. destruct b; auto. Qed.

(** A visit of [forEach] keeps what every call of the callback keeps, from
    index [k0] on. *)
Lemma preserves_forEach_from (I : World T P -> Prop)
    (callback : P -> nat -> M T P unit) (k0 : nat) :
  (forall p k, k0 <= k -> preserves I (callback p k)) ->
  forall len k, k0 <= k -> preserves I (forEach_from callback len k).
Proof.
  intros Hcb len. induction len as [|len IH]; intros k Hk; simpl.
  - apply preserves_ret.
  - apply preserves_bind; [apply preserves_getPoints|]. intros l.
    apply preserves_bind.
    + destruct (nth_error l k); [apply Hcb; exact Hk | apply preserves_ret].
    + intros _. apply IH. lia.
Qed.

(** The trace only grows: since it read [tr0], the events [ev] were added,
    each of them in [Q]. *)
Definition grows (Q : Effect T -> Prop) (tr0 : list (Effect T))
    (w : World T P) : Prop :=
  exists ev, trace w = tr0 ++ ev /\ Forall Q ev.

Lemma grows_refl Q (w : World T P) : grows Q (trace w) w.
Proof. exists []. rewrite app_nil_r. split; [reflexivity | constructor]. Qed.

Lemma preserves_emit Q tr0 (e : Effect T) :
  Q e -> preserves (grows Q tr0) (emit e).
Proof.
  intros He w [ev [Hev Hall]]. exists (ev ++ [e]). simpl. split.
  - rewrite Hev, app_assoc. reflexivity.
  - apply Forall_app. split; [exact Hall | repeat constructor; exact He].
Qed.

Lemma grows_setPoints Q tr0 (l : list P) : preserves (grows Q tr0) (setPoints l).
Proof. intros w Hw. exact Hw. Qed.

Lemma grows_random_value Q tr0 : preserves (grows Q tr0) (@random_value T P).
Proof. intros w Hw. exact Hw. Qed.

(** The array keeps its first element. *)
Definition headed (p : P) (w : World T P) : Prop :=
  exists rest, points w = p :: rest.

Lemma headed_emit p (e : Effect T) : preserves (headed p) (emit e).
Proof. intros w Hw. exact Hw. Qed.

Lemma headed_random_value p : preserves (headed p) (@random_value T P).
Proof. intros w Hw. exact Hw. Qed.

Lemma headed_push p (q : P) : preserves (headed p) (push q).
Proof. intros w [rest Hw]. exists (rest ++ [q]). simpl. rewrite Hw. reflexivity. Qed.

Lemma headed_store p (q : P) (k : nat) :
  1 <= k ->
  preserves (headed p) (bind getPoints (fun l => setPoints (store k q l))).
Proof.
  intros Hk w [rest Hw]. destruct k as [|k]; [lia|].
  exists (store k q rest). simpl. rewrite Hw. reflexivity.
Qed.

Lemma headed_splice p (k : nat) : 1 <= k -> preserves (headed p) (splice k).
Proof.
  intros Hk w [rest Hw]. destruct k as [|k]; [lia|].
  exists (splice1 k rest). simpl. rewrite Hw. reflexivity.
Qed.

Lemma store_store (k : nat) (p q : P) (l : list P) :
  store k q (store k p l) = store k q l.
Proof.
  revert k. induction l as [|a l IH]; intros [|k]; simpl; try reflexivity.
  rewrite IH. reflexivity.
Qed.

Lemma length_store (k : nat) (p : P) (l : list P) :
  length (store k p l) = length l.
Proof.
  revert k. induction l as [|a l IH]; intros [|k]; simpl; try reflexivity.
  rewrite IH. reflexivity.
Qed.

End Invariants.

Lemma exec_bind {T P A B} (m : M T P A) (k : A -> M T P B) (w : World T P) :
  exec (bind m k) w = exec (k (fst (m w))) (snd (m w)).
Proof. unfold exec, bind. destruct (m w) as [a w']. reflexivity. Qed.

(** The events that matter to a particle's life: MIDI messages and
    removals. *)
Definition lifecycle {T} (e : Effect T) : bool :=
  match e with
  | Send _ | Splice _ => true
  | _ => false
  end.

Definition painting {T} (e : Effect T) : Prop := lifecycle e = false.

Definition isCircle {T} (e : Effect T) : bool :=
  match e with
  | FillCircle _ _ _ _ => true
  | _ => false
  end.

Definition isSplice {T} (e : Effect T) : bool :=
  match e with
  | Splice _ => true
  | _ => false
  end.

(** The elements at the odd indices 1, 3, 5, ... *)
Fixpoint odds {A} (l : list A) : list A :=
  match l with
  | _ :: a :: l' => a :: odds l'
  | _ => []
  end.

(* ------------------------------------------------------------------ *)
(** ** The MIDI sketch: what one frame does to the first point *)

Module MidiFrame.
Import Sketch03Midi.

Section Generic.

Context {T : Type} `{JSNumber T}.
Local Open Scope js_scope.

Variable midiOutput : option MIDIOutput.
Variables width height : T.

(** The point as the callback leaves it. *)
Definition aged (p : Point T) (time : T) : Point T :=
  let p1 := update p width height time in
  setAge p1 (age p1 + ofZ 1 / fps).

Definition midiNote (p1 : Point T) : T :=
  mapRange (Vector.x (pos p1)) (ofZ 0) width NOTE_MIN NOTE_MAX.

Definition velocity (p1 : Point T) : T :=
  mapRange (Vector.y (pos p1)) (ofZ 0) height VELOCITY_MIN VELOCITY_MAX.

(** The guard of the removal branch. *)
Definition expired (p2 : Point T) : bool :=
  (age p2 >=? lifespan p2) && truthy midiOutput.

Definition noteOn (p1 : Point T) : list (Effect T) :=
  if (age p1 === ofZ 0) && truthy midiOutput
  then [Send [ofZ 144; midiNote p1; velocity p1]] else [].

Definition noteOff (p1 p2 : Point T) (index : nat) : list (Effect T) :=
  if expired p2 then [Send [ofZ 128; midiNote p1; ofZ 0]; Splice index] else [].

(** One call of the callback, in closed form. *)
Lemma midi_callback_exec (time : T) (p : Point T) (k : nat) (w : World T (Point T)) :
  let p1 := update p width height time in
  let p2 := aged p time in
  exec (callback midiOutput width height time p k) w =
  {| points := if expired p2 then splice1 k (store k p2 (points w))
               else store k p2 (points w);
     rng := rng w; cursor := cursor w;
     trace := trace w ++ draw p1 :: noteOn p1 ++ noteOff p1 p2 k |}.
Proof.
  intros p1 p2. unfold callback, noteOn, noteOff, expired, exec, bind, mutate,
    emit, splice, getPoints, setPoints, ret. fold p1.
  change (setAge p1 (age p1 + ofZ 1 / fps)) with p2.
  destruct ((age p1 === ofZ 0) && truthy midiOutput);
    destruct ((age p2 >=? lifespan p2) && truthy midiOutput);
    simpl; rewrite store_store; repeat rewrite <- app_assoc; reflexivity.
Qed.

Lemma age_aged (p : Point T) (time : T) :
  age (aged p time) = age p + ofZ 1 / fps.
Proof. reflexivity. Qed.

Lemma lifespan_aged (p : Point T) (time : T) :
  lifespan (aged p time) = lifespan p.
Proof. reflexivity. Qed.

(** *** The phases before the pass keep the head and only paint *)

Lemma newPoint_preserves (I : World T (Point T) -> Prop) (x y : T) :
  preserves I (@random_value T (Point T)) -> preserves I (newPoint x y).
Proof.
  intros Hr. unfold newPoint, random_range.
  repeat (apply preserves_bind; [try exact Hr | intros ?]);
    try apply preserves_ret.
Qed.

Lemma topUp_preserves (I : World T (Point T) -> Prop) (fuel : nat) :
  preserves I (@random_value T (Point T)) ->
  (forall q, preserves I (push q)) ->
  preserves I (topUp fuel width height).
Proof.
  intros Hr Hp. induction fuel as [|fuel IH]; simpl.
  - apply preserves_ret.
  - apply preserves_bind; [apply preserves_getPoints | intros l].
    apply preserves_if; [|apply preserves_ret].
    unfold random_range.
    repeat (apply preserves_bind;
            [first [exact Hr | apply preserves_ret | apply newPoint_preserves; exact Hr
                   | apply Hp] | intros ?]).
    exact IH.
Qed.

Lemma spawn_preserves (I : World T (Point T) -> Prop) :
  preserves I (@random_value T (Point T)) ->
  (forall q, preserves I (push q)) ->
  preserves I (spawn width height).
Proof.
  intros Hr Hp. unfold spawn, random_chance.
  apply preserves_bind.
  - apply preserves_bind; [exact Hr | intros ?; apply preserves_ret].
  - intros c. apply preserves_if; [|apply preserves_ret].
    unfold random_range.
    repeat (apply preserves_bind;
            [first [exact Hr | apply preserves_ret | apply newPoint_preserves; exact Hr]
            | intros ?]).
    apply Hp.
Qed.

Lemma grows_push Q tr0 (q : Point T) : preserves (@grows T (Point T) Q tr0) (push q).
Proof. intros w Hw. exact Hw. Qed.

Lemma connect_painting thr (p1 p2 : Point T) : Forall painting (connect thr p1 p2).
Proof.
  unfold connect. destruct (_ >? _); repeat constructor.
Qed.

Lemma connections_painting thr (l : list (Point T)) :
  Forall painting (connections thr l).
Proof.
  induction l as [|p1 rest IH]; simpl; [constructor|].
  apply Forall_app. split; [|exact IH].
  apply Forall_flat_map. apply Forall_forall. intros q _. apply connect_painting.
Qed.

Lemma grows_emitAll Q tr0 (es : list (Effect T)) :
  Forall Q es -> preserves (@grows T (Point T) Q tr0) (emitAll es).
Proof.
  intros Hes w [ev [Hev Hall]]. exists (ev ++ es). simpl. split.
  - rewrite Hev, app_assoc. reflexivity.
  - apply Forall_app. split; assumption.
Qed.

(** Everything [render] does before [points.forEach]. *)
Definition prologue (time : T) : M T (Point T) unit :=
  bind (emit (FillRect (ofZ 10) (ofZ 2) (ofZ 2) (decimal 2 1)
                (ofZ 0) (ofZ 0) width height)) (fun _ =>
  bind (topUp MIN_ACTIVE_POINTS width height) (fun _ =>
  bind (spawn width height) (fun _ =>
  bind getPoints (fun l =>
  emitAll (connections (dynamicThreshold time) l))))).

Lemma render_prologue (time : T) (w : World T (Point T)) :
  exec (render midiOutput width height time) w =
  exec (forEach (callback midiOutput width height time)) (exec (prologue time) w).
Proof.
  unfold render, prologue, exec, bind.
  repeat match goal with |- context [let (_, _) := ?m in _] => destruct m end.
  reflexivity.
Qed.

Lemma prologue_painting (time : T) tr0 :
  preserves (grows painting tr0) (prologue time).
Proof.
  unfold prologue.
  apply preserves_bind; [apply preserves_emit; reflexivity | intros _].
  apply preserves_bind;
    [apply topUp_preserves; [apply grows_random_value | apply grows_push] | intros _].
  apply preserves_bind;
    [apply spawn_preserves; [apply grows_random_value | apply grows_push] | intros _].
  apply preserves_bind; [apply preserves_getPoints | intros l].
  apply grows_emitAll, connections_painting.
Qed.

Lemma prologue_headed (time : T) (p : Point T) :
  preserves (headed p) (prologue time).
Proof.
  unfold prologue.
  apply preserves_bind; [apply headed_emit | intros _].
  apply preserves_bind;
    [apply topUp_preserves; [apply headed_random_value | apply headed_push] | intros _].
  apply preserves_bind;
    [apply spawn_preserves; [apply headed_random_value | apply headed_push] | intros _].
  apply preserves_bind; [apply preserves_getPoints | intros l].
  intros w Hw. exact Hw.
Qed.

(** *** The pass, seen from the first point *)

Lemma callback_headed (time : T) (p q : Point T) (k : nat) :
  1 <= k -> preserves (headed p) (callback midiOutput width height time q k).
Proof.
  intros Hk w [rest Hw]. change (headed p (exec (callback midiOutput width height time q k) w)).
  rewrite midi_callback_exec. destruct k as [|k]; [lia|].
  unfold headed. simpl. rewrite Hw. simpl.
  destruct (expired (aged q time)); simpl; eexists; reflexivity.
Qed.

Lemma callback_grows (time : T) (q : Point T) (k : nat) tr0 :
  preserves (grows (fun _ => True) tr0) (callback midiOutput width height time q k).
Proof.
  intros w [ev [Hev _]].
  change (grows (fun _ => True) tr0 (exec (callback midiOutput width height time q k) w)).
  rewrite midi_callback_exec. eexists. simpl. split.
  - rewrite Hev, <- app_assoc. reflexivity.
  - apply Forall_forall. intros; exact I.
Qed.

(** The world in which the pass goes on after the call at index 0. *)
Definition afterHead (time : T) (p : Point T) (w : World T (Point T))
  : World T (Point T) :=
  exec (callback midiOutput width height time p 0) w.

Lemma forEach_head (time : T) (p : Point T) (rest : list (Point T))
    (w : World T (Point T)) :
  points w = p :: rest ->
  exec (forEach (callback midiOutput width height time)) w =
  exec (forEach_from (callback midiOutput width height time) (length rest) 1)
       (afterHead time p w).
Proof.
  intros Hw. unfold forEach, afterHead, exec, bind, getPoints. simpl.
  rewrite Hw. simpl. unfold bind, getPoints. simpl. rewrite Hw. simpl.
  destruct (callback midiOutput width height time p 0 w) as [u w']. reflexivity.
Qed.

(** One frame on a world whose array starts with [p]: before the pass the
    frame only paints; the pass starts with [p] (drawn, announced when it
    is new, then silenced and spliced out when it has expired), and a
    surviving [p] is still first when the frame ends. *)
Lemma render_head (time : T) (p : Point T) (w : World T (Point T)) :
  headed p w ->
  let p1 := update p width height time in
  let p2 := aged p time in
  exists pre post,
    trace (exec (render midiOutput width height time) w) =
      trace w ++ pre ++ (draw p1 :: noteOn p1 ++ noteOff p1 p2 0) ++ post
    /\ Forall painting pre
    /\ (expired p2 = false ->
        headed p2 (exec (render midiOutput width height time) w)).
Proof.
  intros Hw p1 p2. rewrite render_prologue.
  pose proof (@prologue_headed time p w Hw) as [rest Hrest].
  pose proof (@prologue_painting time (trace w) w (grows_refl _ w))
    as [pre [Hpre Hpaint]].
  fold (exec (prologue time) w) in Hrest, Hpre.
  set (w1 := exec (prologue time) w) in *.
  rewrite (@forEach_head time p rest w1 Hrest).
  assert (Hw2 : afterHead time p w1 =
    {| points := if expired p2 then splice1 0 (store 0 p2 (points w1))
                 else store 0 p2 (points w1);
       rng := rng w1; cursor := cursor w1;
       trace := trace w1 ++ draw p1 :: noteOn p1 ++ noteOff p1 p2 0 |})
    by (unfold afterHead; apply midi_callback_exec).
  set (w2 := afterHead time p w1) in *.
  pose proof (@preserves_forEach_from T (Point T) (grows (fun _ => True) (trace w2))
                (callback midiOutput width height time) 1
                (fun q k _ => @callback_grows time q k (trace w2))
                (length rest) 1 (le_n 1) w2 (grows_refl _ w2)) as [post [Hpost _]].
  fold (exec (forEach_from (callback midiOutput width height time) (length rest) 1) w2)
    in Hpost.
  exists pre, post. split; [|split].
  - rewrite Hpost, Hw2. simpl. rewrite Hpre.
    repeat (rewrite <- app_assoc; cbn [app]). reflexivity.
  - exact Hpaint.
  - intros Halive.
    apply (@preserves_forEach_from T (Point T) (headed p2)
             (callback midiOutput width height time) 1
             (fun q k Hk => @callback_headed time p2 q k Hk) (length rest) 1 (le_n 1)).
    rewrite Hw2, Halive, Hrest. simpl. eexists; reflexivity.
Qed.

(** [outlives n a l]: a point of age [a] and lifespan [l] is still below its
    lifespan after each of the next [n] age increments. *)
Fixpoint outlives (n : nat) (a l : T) : bool :=
  match n with
  | O => true
  | S n' =>
      let a' := a + ofZ 1 / fps in
      negb (a' >=? l) && outlives n' a' l
  end.

(** The age after [n] increments. *)
Definition ageAfter (n : nat) (a : T) : T :=
  Nat.iter n (fun a => a + ofZ 1 / fps) a.

Lemma ageAfter_shift (n : nat) (a : T) :
  ageAfter n (a + ofZ 1 / fps) = ageAfter (S n) a.
Proof.
  unfold ageAfter. induction n as [|n IH]; simpl; [reflexivity|].
  rewrite IH. reflexivity.
Qed.

Lemma age_fold_aged (times : list T) (p : Point T) :
  age (fold_left aged times p) = ageAfter (length times) (age p)
  /\ lifespan (fold_left aged times p) = lifespan p.
Proof.
  revert p. induction times as [|t times IH]; intros p; simpl.
  - split; reflexivity.
  - destruct (IH (aged p t)) as [IHa IHl]. split.
    + rewrite IHa, age_aged. apply ageAfter_shift.
    + rewrite IHl. reflexivity.
Qed.

(** The first point of the array over a run of frames it outlives. *)
Lemma frames_head (times : list T) (p : Point T) (w : World T (Point T)) :
  headed p w ->
  outlives (length times) (age p) (lifespan p) = true ->
  headed (fold_left aged times p)
         (exec (frames midiOutput width height times) w).
Proof.
  revert p w. induction times as [|t times IH]; intros p w Hw Hlive; simpl.
  - exact Hw.
  - simpl in Hlive. apply andb_prop in Hlive. destruct Hlive as [Hnow Hlater].
    rewrite exec_bind. apply IH.
    + destruct (render_head t Hw) as [pre [post [_ [_ Hhead]]]].
      apply Hhead. unfold expired. rewrite age_aged, lifespan_aged.
      apply negb_true_iff in Hnow. rewrite Hnow. reflexivity.
    + rewrite age_aged, lifespan_aged. exact Hlater.
Qed.

Lemma outlives_le (n m : nat) (a l : T) :
  m <= n -> outlives n a l = true -> outlives m a l = true.
Proof.
  revert m a. induction n as [|n IH]; intros m a Hm Hn.
  - replace m with 0 by lia. reflexivity.
  - destruct m as [|m]; [reflexivity|]. simpl in *.
    apply andb_prop in Hn. destruct Hn as [Hnow Hlater].
    rewrite Hnow. simpl. apply IH; [lia | exact Hlater].
Qed.

Lemma outlives_last (n : nat) (a l : T) :
  outlives (S n) a l = true -> (ageAfter (S n) a >=? l) = false.
Proof.
  revert a. induction n as [|n IH]; intros a Hn.
  - simpl in Hn. apply andb_prop in Hn. destruct Hn as [Hnow _].
    apply negb_true_iff in Hnow. exact Hnow.
  - rewrite <- ageAfter_shift. apply IH.
    change (outlives (S (S n)) a l) with
      (negb (a + ofZ 1 / fps >=? l) && outlives (S n) (a + ofZ 1 / fps) l) in Hn.
    apply andb_prop in Hn. destruct Hn as [_ Hlater]. exact Hlater.
Qed.

(** Without a MIDI output the removal branch is never taken: the first
    point stays first, whatever its age. *)
Lemma frames_head_silent (times : list T) (p : Point T) (w : World T (Point T)) :
  midiOutput = None ->
  headed p w ->
  headed (fold_left aged times p)
         (exec (frames midiOutput width height times) w).
Proof.
  intros Hnone. revert p w. induction times as [|t times IH]; intros p w Hw; simpl.
  - exact Hw.
  - rewrite exec_bind. apply IH.
    destruct (render_head t Hw) as [pre [post [_ [_ Hhead]]]].
    apply Hhead. unfold expired. rewrite Hnone. apply andb_false_r.
Qed.

End Generic.

Section Lifecycle.

Context {T : Type} `{JSNumber T}.
Local Open Scope js_scope.

(** The frame in which the first point is new and does not expire. *)
Lemma creation_frame (output : MIDIOutput) (width height time : T)
    (p : Point T) (w : World T (Point T)) :
  headed p w ->
  (age p === ofZ 0) = true ->
  (age p + ofZ 1 / fps >=? lifespan p) = false ->
  let p1 := update p width height time in
  exists pre post,
    trace (exec (render (Some output) width height time) w) =
      trace w ++ pre
        ++ [draw p1;
            Send [ofZ 144;
                  mapRange (Vector.x (pos p1)) (ofZ 0) width NOTE_MIN NOTE_MAX;
                  mapRange (Vector.y (pos p1)) (ofZ 0) height
                    VELOCITY_MIN VELOCITY_MAX]]
        ++ post
    /\ Forall painting pre.
Proof.
  intros Hw Hnew Hlive p1.
  destruct (@render_head _ _ (Some output) width height time p w Hw)
    as [pre [post [Htrace [Hpaint _]]]].
  exists pre, post. split; [|exact Hpaint].
  rewrite Htrace. fold p1.
  assert (Hon : noteOn (Some output) width height p1 =
                [Send [ofZ 144; midiNote width p1; velocity height p1]]).
  { unfold noteOn. change (age p1) with (age p). rewrite Hnew. reflexivity. }
  assert (Hoff : noteOff (Some output) width p1 (aged width height p time) 0 = []).
  { unfold noteOff, expired. rewrite age_aged, lifespan_aged, Hlive. reflexivity. }
  rewrite Hon, Hoff. reflexivity.
Qed.

(** The frame in which the first point, not new, reaches its lifespan. *)
Lemma expiry_frame (output : MIDIOutput) (width height time : T)
    (q : Point T) (w : World T (Point T)) :
  headed q w ->
  (age q === ofZ 0) = false ->
  (age q + ofZ 1 / fps >=? lifespan q) = true ->
  let q1 := update q width height time in
  exists pre post,
    trace (exec (render (Some output) width height time) w) =
      trace w ++ pre
        ++ [draw q1;
            Send [ofZ 128;
                  mapRange (Vector.x (pos q1)) (ofZ 0) width NOTE_MIN NOTE_MAX;
                  ofZ 0];
            Splice 0]
        ++ post
    /\ Forall painting pre.
Proof.
  intros Hw Hold Hdue q1.
  destruct (@render_head _ _ (Some output) width height time q w Hw)
    as [pre [post [Htrace [Hpaint _]]]].
  exists pre, post. split; [|exact Hpaint].
  rewrite Htrace. fold q1.
  assert (Hon : noteOn (Some output) width height q1 = []).
  { unfold noteOn. change (age q1) with (age q). rewrite Hold. reflexivity. }
  assert (Hoff : noteOff (Some output) width q1 (aged width height q time) 0 =
                 [Send [ofZ 128; midiNote width q1; ofZ 0]; Splice 0]).
  { unfold noteOff, expired. rewrite age_aged, lifespan_aged, Hdue. reflexivity. }
  rewrite Hon, Hoff. reflexivity.
Qed.


End Lifecycle.
End MidiFrame.

(* ------------------------------------------------------------------ *)
(** ** The MIDI sketch on doubles *)

Module MidiBinary64.
Import Sketch03Midi MidiFrame.

(** A generator for closed runs: [value()] walks the residues of
    [37 n + 11] modulo 101, scaled into [0, 1). *)
Definition lcg (n : nat) : Binary64.float :=
  PrimFloat.div (Binary64.of_Z ((Z.of_nat n * 37 + 11) mod 101))
                (Binary64.of_Z 101).

(** The frame times of a run at 60 frames per second: [k / 60], from frame
    [k] on. *)
Fixpoint timelineFrom (k : Z) (n : nat) : list Binary64.float :=
  match n with
  | O => []
  | S n' =>
      PrimFloat.div (Binary64.of_Z k) (Binary64.of_Z 60)
        :: timelineFrom (k + 1) n'
  end.

Definition timeline (n : nat) : list Binary64.float := timelineFrom 0 n.

Lemma length_timelineFrom (k : Z) (n : nat) : length (timelineFrom k n) = n.
Proof.
  revert k. induction n as [|n IH]; intros k; simpl; [reflexivity|].
  rewrite IH. reflexivity.
Qed.

Lemma length_timeline (n : nat) : length (timeline n) = n.
Proof. apply length_timelineFrom. Qed.

Section Engine.

Variables fsin fcos : Binary64.float -> Binary64.float.

#[local] Instance engine : JSNumber Binary64.float := binary64 fsin fcos.

Local Open Scope js_scope.

(** In doubles, 3600 additions of [1/60] stay below 60. *)
Lemma outlives_3600 : outlives 3600 (ofZ 0) (ofZ 60) = true.
Proof. vm_compute. reflexivity. Qed.

Lemma expired_3601 :
  (ageAfter 3600 (ofZ 0) + ofZ 1 / fps >=? ofZ 60) = true.
Proof. vm_compute. reflexivity. Qed.

Lemma not_new_3600 : (ageAfter 3600 (ofZ 0) === ofZ 0) = false.
Proof. vm_compute. reflexivity. Qed.

(** C4, amended.  A particle of lifespan 60 (seconds) ages by 1/60 per
    frame, so it lives for about 3600 frames, not 60.  Followed as the first
    element of the array, with a MIDI output present: after each of the
    first 3600 frames it is still the first element, below its lifespan
    (in doubles the 3600-fold sum of 1/60 is 59.999999999997875); in frame
    3601 the pass draws it, sends its note-off [128, note, 0] and then
    splices index 0, and nothing but painting precedes that in the frame. *)
Theorem C4_lifespan_60_is_removed_on_frame_3601
    (output : MIDIOutput) (width height time : Binary64.float)
    (times : list Binary64.float)
    (p : Point Binary64.float) (w : World Binary64.float (Point Binary64.float)) :
  headed p w ->
  age p = ofZ 0 ->
  lifespan p = ofZ 60 ->
  length times = 3600 ->
  (forall n, n <= 3600 ->
     let q := fold_left (aged width height) (firstn n times) p in
     headed q (exec (frames (Some output) width height (firstn n times)) w)
     /\ age q = ageAfter n (ofZ 0)
     /\ lifespan q = ofZ 60
     /\ (age q >=? lifespan q) = false)
  /\ (let q := fold_left (aged width height) times p in
      let w3600 := exec (frames (Some output) width height times) w in
      let q1 := update q width height time in
      exists pre post,
        trace (exec (render (Some output) width height time) w3600) =
          trace w3600 ++ pre
            ++ [draw q1; Send [ofZ 128; midiNote width q1; ofZ 0]; Splice 0]
            ++ post
        /\ Forall painting pre).
Proof.
  intros Hw Hage Hlife Hlen.
  assert (Hrun : forall n, n <= 3600 ->
    let q := fold_left (aged width height) (firstn n times) p in
    headed q (exec (frames (Some output) width height (firstn n times)) w)
    /\ age q = ageAfter n (ofZ 0) /\ lifespan q = ofZ 60).
  { intros n Hn q.
    assert (Hfirst : length (firstn n times) = n)
      by (rewrite length_firstn; lia).
    destruct (age_fold_aged width height (firstn n times) p) as [Ha Hl].
    rewrite Hfirst, Hage in Ha. rewrite Hlife in Hl.
    split; [|split; assumption].
    apply frames_head; [exact Hw|].
    rewrite Hfirst, Hage, Hlife.
    apply (outlives_le (n := 3600)); [exact Hn | exact outlives_3600]. }
  split.
  - intros n Hn q. destruct (Hrun n Hn) as [Hq [Ha Hl]].
    repeat split; try assumption.
    fold q in Ha, Hl. rewrite Ha, Hl.
    destruct n as [|n]; [vm_compute; reflexivity|].
    apply outlives_last.
    apply (outlives_le (n := 3600)); [exact Hn | exact outlives_3600].
  - intros q w3600 q1.
    destruct (Hrun 3600 (le_n _)) as [Hq [Ha Hl]].
    rewrite <- Hlen, firstn_all in Hq, Ha, Hl. fold q in Hq, Ha, Hl.
    fold w3600 in Hq.
    destruct (@render_head _ _ (Some output) width height time q w3600 Hq)
      as [pre [post [Htrace [Hpaint _]]]].
    exists pre, post. split; [|exact Hpaint].
    rewrite Htrace. fold q1.
    assert (Hon : noteOn (Some output) width height q1 = []).
    { unfold noteOn.
      change (age q1) with (age q). rewrite Ha, Hlen, not_new_3600. reflexivity. }
    assert (Hoff : noteOff (Some output) width q1 (aged width height q time) 0 =
                   [Send [ofZ 128; midiNote width q1; ofZ 0]; Splice 0]).
    { unfold noteOff, expired. rewrite age_aged, lifespan_aged, Ha, Hl, Hlen.
      rewrite expired_3601. reflexivity. }
    rewrite Hon, Hoff. reflexivity.
Qed.

End Engine.

(** *** Closed runs, on the fixed engine *)

#[local] Existing Instance js64.

Local Open Scope js_scope.

Definition canvasWidth : Binary64.float := ofZ 1080.    (* settings.dimensions *)
Definition canvasHeight : Binary64.float := ofZ 1350.

Definition blank (r : nat -> Binary64.float)
  : World Binary64.float (Point Binary64.float) :=
  {| points := []; rng := r; cursor := 0; trace := [] |}.

(** The state [sketch] sets up when the generator's fifth value is 0: the
    first point gets the shortest lifespan, 60. *)
Definition rng60 (n : nat) : Binary64.float :=
  if Nat.eqb n 4 then ofZ 0 else lcg n.

Definition init60 : World Binary64.float (Point Binary64.float) :=
  exec (sketch canvasWidth canvasHeight) (blank rng60).

Definition nowhere : Point Binary64.float :=
  {| pos := Vector.new (ofZ 0) (ofZ 0); vel := Vector.new (ofZ 0) (ofZ 0);
     radius := ofZ 0; age := ofZ 0; lifespan := ofZ 0 |}.

Definition head60 : Point Binary64.float :=
  Eval vm_compute in hd nowhere (points init60).

Lemma init60_headed : headed head60 init60.
Proof. exists (tl (points init60)). vm_compute. reflexivity. Qed.

(** C4, as stated, fails: with a MIDI output present, the point of
    lifespan 60 that [sketch] created first is still first in the array
    after 60 frames; its age is about one second, far below its lifespan. *)
Lemma C4_counterexample_alive_after_60_frames :
  let q := fold_left (aged canvasWidth canvasHeight) (timeline 60) head60 in
  headed q (exec (frames (Some 0) canvasWidth canvasHeight (timeline 60)) init60)
  /\ lifespan q = ofZ 60
  /\ (age q <? ofZ 2) = true
  /\ (age q >=? lifespan q) = false.
Proof.
  intros q. split; [|split; [|split]].
  - apply frames_head; [exact init60_headed | vm_compute; reflexivity].
  - vm_compute. reflexivity.
  - vm_compute. reflexivity.
  - vm_compute. reflexivity.
Qed.

Lemma C4_witness :
  headed head60 init60
  /\ age head60 = ofZ 0
  /\ lifespan head60 = ofZ 60
  /\ length (timeline 3600) = 3600
  /\ (forall n, n <= 3600 ->
        let q := fold_left (aged canvasWidth canvasHeight)
                   (firstn n (timeline 3600)) head60 in
        headed q (exec (frames (Some 0) canvasWidth canvasHeight
                          (firstn n (timeline 3600))) init60)
        /\ age q = ageAfter n (ofZ 0)
        /\ lifespan q = ofZ 60
        /\ (age q >=? lifespan q) = false)
  /\ (let q := fold_left (aged canvasWidth canvasHeight) (timeline 3600) head60 in
      let w3600 := exec (frames (Some 0) canvasWidth canvasHeight (timeline 3600))
                     init60 in
      let q1 := update q canvasWidth canvasHeight (ofZ 60) in
      exists pre post,
        trace (exec (render (Some 0) canvasWidth canvasHeight (ofZ 60)) w3600) =
          trace w3600 ++ pre
            ++ [draw q1; Send [ofZ 128; midiNote canvasWidth q1; ofZ 0]; Splice 0]
            ++ post
        /\ Forall painting pre).
Proof.
  split; [exact init60_headed|].
  split; [reflexivity|].
  split; [reflexivity|].
  split; [apply length_timeline|].
  exact (@C4_lifespan_60_is_removed_on_frame_3601 Binary64.sin Binary64.cos
           0 canvasWidth canvasHeight (ofZ 60) (timeline 3600) head60 init60
           init60_headed eq_refl eq_refl (length_timeline 3600)).
Defined.

(** The state [sketch] sets up from the generator [lcg]; its first point
    has lifespan 128.91..., which 7734 age increments leave it below. *)
Definition init : World Binary64.float (Point Binary64.float) :=
  exec (sketch canvasWidth canvasHeight) (blank lcg).

Definition head0 : Point Binary64.float :=
  Eval vm_compute in hd nowhere (points init).

Lemma init_headed : headed head0 init.
Proof. exists (tl (points init)). vm_compute. reflexivity. Qed.

Definition secondsAt (frame : Z) : Binary64.float := ofZ frame / fps.

Lemma head0_outlives_7734 : outlives 7734 (age head0) (lifespan head0) = true.
Proof. vm_compute. reflexivity. Qed.


Definition laterFrames : list Binary64.float := tl (timeline 7734).


(** C1, at its failing input.  Run the sketch from [init] without a MIDI
    output: whatever the number of frames, the point created first is still
    the first element of the array; after 7735 frames its age has reached
    its lifespan, and it stays.  (With an output it is spliced out in frame
    7735: see [C5_counterexample_note_off_39_after_note_on_40].) *)
Theorem C1_expired_point_stays_without_midi_output :
  (forall times : list Binary64.float,
     headed (fold_left (aged canvasWidth canvasHeight) times head0)
            (exec (frames None canvasWidth canvasHeight times) init))
  /\ (let q := fold_left (aged canvasWidth canvasHeight) (timeline 7735) head0 in
      (age q >=? lifespan q) = true).
Proof.
  split.
  - intros times. apply frames_head_silent; [reflexivity | exact init_headed].
  - vm_compute. reflexivity.
Qed.

(** A state in the middle of a run: the 300 points [sketch] set up from
    [rng60], 3600 frames old.  The first point and three more have lifespan
    60 and are one frame from it. *)
Definition late60 : World Binary64.float (Point Binary64.float) :=
  {| points := map (fun p => setAge p (ageAfter 3600 (ofZ 0))) (points init60);
     rng := rng60; cursor := cursor init60 + 3600; trace := [] |}.

(** The frame from [late60], evaluated with a MIDI output... *)
Lemma late60_frame_with_output :
  let after :=
    exec (render (Some 0) canvasWidth canvasHeight (secondsAt 3600)) late60 in
  length (points late60) = 300
  /\ length (points after) = 296
  /\ cursor after = 5101
  /\ length (filter isCircle (trace after)) = 296
  /\ filter isSplice (trace after) = [Splice 0; Splice 44; Splice 144; Splice 244]
  /\ nth_error (points after) 0 = nth_error (points late60) 1.
Proof. vm_compute. repeat split. Qed.

(** ... and without one. *)
Lemma late60_frame_without_output :
  let after :=
    exec (render None canvasWidth canvasHeight (secondsAt 3600)) late60 in
  length (points after) = 300
  /\ cursor after = 5101
  /\ filter lifecycle (trace after) = [].
Proof. vm_compute. repeat split. Qed.

(** C2, at its failing input.  One frame from [late60], same generator and
    same time, with and without a MIDI output: with the output four points
    are removed, without it none is, and the two arrays differ. *)
Theorem C2_runs_with_and_without_output_differ :
  let withOutput :=
    exec (render (Some 0) canvasWidth canvasHeight (secondsAt 3600)) late60 in
  let withoutOutput :=
    exec (render None canvasWidth canvasHeight (secondsAt 3600)) late60 in
  length (points late60) = 300
  /\ length (points withOutput) = 296
  /\ length (points withoutOutput) = 300
  /\ cursor withOutput = cursor withoutOutput
  /\ filter lifecycle (trace withoutOutput) = [].
Proof.
  intros withOutput withoutOutput.
  destruct late60_frame_with_output as [Hstart [Hwith [Hcursor _]]].
  destruct late60_frame_without_output as [Hwithout [Hcursor' Hquiet]].
  fold withOutput in Hwith, Hcursor. fold withoutOutput in Hwithout, Hcursor', Hquiet.
  split; [exact Hstart|].
  split; [exact Hwith|].
  split; [exact Hwithout|].
  split; [|exact Hquiet].
  rewrite Hcursor, Hcursor'. reflexivity.
Qed.

(** The pass of the MIDI sketch skips as that of the fixed sketch does.  In
    the frame from [late60] with a MIDI output, the pass starts on 300
    points and draws 296: the removal at index 0 shifts the second point to
    index 0, which the pass has left, so that point is neither updated, nor
    drawn, nor aged in this frame. *)
Lemma C3_midi_pass_skips_the_point_after_a_removed_one :
  let after :=
    exec (render (Some 0) canvasWidth canvasHeight (secondsAt 3600)) late60 in
  length (points late60) = 300
  /\ length (filter isCircle (trace after)) = 296
  /\ filter isSplice (trace after) = [Splice 0; Splice 44; Splice 144; Splice 244]
  /\ nth_error (points after) 0 = nth_error (points late60) 1.
Proof.
  intros after.
  destruct late60_frame_with_output as [Hstart [_ [_ [Hdrawn [Hspliced Hsecond]]]]].
  fold after in Hdrawn, Hspliced, Hsecond.
  split; [exact Hstart|].
  split; [exact Hdrawn|].
  split; [exact Hspliced | exact Hsecond].
Qed.

End MidiBinary64.

(* ------------------------------------------------------------------ *)
(** ** Facts about [forEach] *)

Section ForEachFacts.

Context {T P : Type}.

Lemma forEach_from_step (callback : P -> nat -> M T P unit) (len k : nat)
    (w : World T P) :
  exec (forEach_from callback (S len) k) w =
  exec (forEach_from callback len (S k))
       (match nth_error (points w) k with
        | Some p => exec (callback p k) w
        | None => w
        end).
Proof.
  unfold exec. simpl. unfold bind, getPoints. simpl.
  destruct (nth_error (points w) k) as [p|]; simpl.
  - destruct (callback p k w) as [u w']. reflexivity.
  - reflexivity.
Qed.

Lemma forEach_exec (callback : P -> nat -> M T P unit) (w : World T P) :
  exec (forEach callback) w =
  exec (forEach_from callback (length (points w)) 0) w.
Proof. reflexivity. Qed.

Lemma nth_error_middle (done todo : list P) (p : P) :
  nth_error (done ++ p :: todo) (length done) = Some p.
Proof. induction done as [|a done IH]; simpl; [reflexivity | exact IH]. Qed.

Lemma store_middle (done todo : list P) (p q : P) :
  store (length done) q (done ++ p :: todo) = done ++ q :: todo.
Proof.
  induction done as [|a done IH]; simpl; [reflexivity|]. rewrite IH. reflexivity.
Qed.

End ForEachFacts.

(* ------------------------------------------------------------------ *)
(** ** The fixed-lifespan sketch: a frame that removes nothing *)

Module FixedFrame.
Import Sketch03.

Section Generic.

Context {T : Type} `{JSNumber T}.
Local Open Scope js_scope.

Variables width height : T.

Lemma update_age (time : T) (p : Point T) (w : World T (Point T)) :
  age (fst (update p width height time w)) = age p.
Proof. reflexivity. Qed.

Lemma update_world (time : T) (p : Point T) (w : World T (Point T)) :
  snd (update p width height time w) =
  {| points := points w; rng := rng w; cursor := S (S (cursor w));
     trace := trace w |}.
Proof. reflexivity. Qed.

(** One call of the callback, in closed form. *)
Lemma fixed_callback_exec (time : T) (p : Point T) (k : nat) (w : World T (Point T)) :
  let p1 := fst (update p width height time w) in
  let p2 := setAge p1 (age p + ofZ 1 / fps) in
  exec (callback width height time p k) w =
  {| points := if age p2 >=? POINT_LIFESPAN
               then splice1 k (store k p2 (points w))
               else store k p2 (points w);
     rng := rng w; cursor := S (S (cursor w));
     trace := trace w ++ draw p1
                :: (if age p2 >=? POINT_LIFESPAN then [Splice k] else []) |}.
Proof.
  intros p1 p2. unfold callback, exec, bind.
  pose proof (update_world time p w) as Hw.
  pose proof (update_age time p w) as Ha.
  fold p1 in Ha.
  destruct (update p width height time w) as [q w1] eqn:Hupd.
  simpl in Hw. subst w1. simpl in p1. subst p1.
  unfold mutate, emit, splice, getPoints, setPoints, ret, bind. simpl.
  rewrite store_store, Ha. fold p2.
  change (age p2) with (age p + ofZ 1 / fps).
  destruct (age p + ofZ 1 / fps >=? POINT_LIFESPAN); simpl;
    repeat rewrite <- app_assoc; reflexivity.
Qed.

(** A point that has not aged yet. *)
Definition fresh (p : Point T) : Prop := age p = ofZ 0.

(** A point after its first frame. *)
Definition oneFrameOld (p : Point T) : Prop := age p = ofZ 0 + ofZ 1 / fps.

Lemma newPoint_fresh (x y : T) (w : World T (Point T)) :
  fresh (fst (newPoint x y w))
  /\ points (snd (newPoint x y w)) = points w.
Proof. split; reflexivity. Qed.

(** The step of the top-up loop and of the spawn: one fresh point at the
    end of the array. *)
Definition addPoint : M T (Point T) unit :=
  bind (random_range (ofZ 0) width) (fun x =>
  bind (random_range (ofZ 0) height) (fun y =>
  bind (newPoint x y) (fun p => push p))).

Lemma addPoint_points (w : World T (Point T)) :
  exists p, fresh p /\ points (exec addPoint w) = points w ++ [p].
Proof. eexists. split; [|reflexivity]. reflexivity. Qed.

Lemma topUp_step (fuel : nat) (w : World T (Point T)) :
  exec (topUp (S fuel) width height) w =
  if Nat.ltb (length (points w)) MIN_ACTIVE_POINTS
  then exec (topUp fuel width height) (exec addPoint w)
  else w.
Proof.
  unfold exec at 1. simpl. unfold bind at 1. unfold getPoints at 1.
  destruct (Nat.ltb (length (points w)) MIN_ACTIVE_POINTS); reflexivity.
Qed.

(** The top-up loop fills the array to [MIN_ACTIVE_POINTS] with fresh
    points, and leaves an array that is long enough alone. *)
Lemma topUp_points (fuel : nat) (w : World T (Point T)) :
  (MIN_ACTIVE_POINTS - length (points w))%nat <= fuel ->
  exists added,
    points (exec (topUp fuel width height) w) = points w ++ added
    /\ Forall fresh added
    /\ length added = (MIN_ACTIVE_POINTS - length (points w))%nat.
Proof.
  revert w. induction fuel as [|fuel IH]; intros w Hfuel.
  - exists []. rewrite app_nil_r.
    split; [reflexivity | split; [constructor | cbn [length]; lia]].
  - rewrite topUp_step.
    destruct (Nat.ltb_spec (length (points w)) MIN_ACTIVE_POINTS) as [Hlt|Hge].
    + destruct (addPoint_points w) as [p [Hp Hpts]].
      destruct (IH (exec addPoint w)) as [added [Hadd [Hfresh Hlen]]].
      { rewrite Hpts, length_app. cbn [length]. lia. }
      exists (p :: added). rewrite Hadd, Hpts, <- app_assoc. cbn [app].
      split; [reflexivity | split; [constructor; assumption|]].
      cbn [length]. rewrite Hlen, Hpts, length_app. cbn [length]. lia.
    + exists []. rewrite app_nil_r.
      split; [reflexivity | split; [constructor | cbn [length]; lia]].
Qed.

(** The probabilistic spawn adds one fresh point when the draw is below
    [THOUGHTS_PER_SECOND / 60], and nothing otherwise. *)
Definition spawns (w : World T (Point T)) : bool :=
  rng w (cursor w) <? THOUGHTS_PER_SECOND / ofZ 60.

Lemma spawn_points (w : World T (Point T)) :
  exists added,
    points (exec (spawn width height) w) = points w ++ added
    /\ Forall fresh added
    /\ length added = if spawns w then 1 else 0.
Proof.
  unfold spawn, spawns, exec, bind, random_chance, random_value, ret. simpl.
  destruct (rng w (cursor w) <? THOUGHTS_PER_SECOND / ofZ 60).
  - eexists [_]. simpl. split; [reflexivity | split; [|reflexivity]].
    repeat constructor.
  - exists []. simpl. rewrite app_nil_r.
    split; [reflexivity | split; [constructor | reflexivity]].
Qed.

(** *** The pass over fresh points *)

(** While a point that is one frame old is below [POINT_LIFESPAN], a pass
    over fresh points visits each of them once, in order, and removes
    none. *)
Lemma pass_over_fresh (time : T) :
  (ofZ 0 + ofZ 1 / fps >=? POINT_LIFESPAN) = false ->
  forall (todo done : list (Point T)) (w : World T (Point T)),
    points w = done ++ todo ->
    Forall fresh todo ->
    exists done',
      points (exec (forEach_from (callback width height time)
                      (length todo) (length done)) w) = done ++ done'
      /\ Forall oneFrameOld done'
      /\ length done' = length todo.
Proof.
  intros Hyoung todo. induction todo as [|p todo IH]; intros done w Hw Hfresh.
  - exists []. split; [exact Hw | split; [constructor | reflexivity]].
  - cbn [length]. rewrite forEach_from_step, Hw, nth_error_middle.
    inversion Hfresh as [|p' todo' Hp Htodo]; subst.
    rewrite fixed_callback_exec. cbn [age setAge].
    rewrite Hp, Hyoung.
    set (p2 := setAge (fst (update p width height time w))
                      (ofZ 0 + ofZ 1 / fps)).
    set (w1 := {| points := store (length done) p2 (points w);
                  rng := rng w; cursor := S (S (cursor w));
                  trace := _ |}).
    destruct (IH (done ++ [p2]) w1) as [done' [Hpts [Hold Hlen]]].
    + unfold w1. cbn [points]. rewrite Hw, store_middle, <- app_assoc. reflexivity.
    + exact Htodo.
    + exists (p2 :: done'). rewrite length_app in Hpts. cbn [length] in Hpts.
      rewrite Nat.add_1_r in Hpts. rewrite Hpts, <- app_assoc.
      split; [reflexivity | split].
      * constructor; [reflexivity | exact Hold].
      * cbn [length]. rewrite Hlen. reflexivity.
Qed.

(** A frame on an array of at most [MIN_ACTIVE_POINTS] fresh points: the
    array is topped up, perhaps grown by one spawned point, and every point
    is then aged once; none is removed. *)
Lemma render_fresh (time : T) (w : World T (Point T)) :
  (ofZ 0 + ofZ 1 / fps >=? POINT_LIFESPAN) = false ->
  Forall fresh (points w) ->
  length (points w) <= MIN_ACTIVE_POINTS ->
  Forall oneFrameOld (points (exec (render width height time) w))
  /\ (length (points (exec (render width height time) w)) = MIN_ACTIVE_POINTS
      \/ length (points (exec (render width height time) w))
         = S MIN_ACTIVE_POINTS).
Proof.
  intros Hyoung Hfresh Hlen. unfold render. rewrite !exec_bind.
  set (w0 := snd (emit _ w)).
  set (w1 := snd (topUp MIN_ACTIVE_POINTS width height w0)).
  set (w2 := snd (spawn width height w1)).
  set (w3 := snd (emitAll _ (snd (getPoints w2)))).
  assert (H0 : points w0 = points w) by reflexivity.
  destruct (@topUp_points MIN_ACTIVE_POINTS w0) as [added1 [H1 [Hf1 Hl1]]];
    [lia|].
  change (points w1 = points w0 ++ added1) in H1.
  destruct (spawn_points w1) as [added2 [H2 [Hf2 Hl2]]].
  change (points w2 = points w1 ++ added2) in H2.
  assert (H3 : points w3 = points w ++ added1 ++ added2).
  { change (points w3) with (points w2). rewrite H2, H1, H0, <- app_assoc.
    reflexivity. }
  assert (Hall : Forall fresh (points w3)).
  { rewrite H3. repeat (apply Forall_app; split); assumption. }
  assert (Hcount : length (points w3) = MIN_ACTIVE_POINTS
                   \/ length (points w3) = S MIN_ACTIVE_POINTS).
  { rewrite H3, !length_app, Hl1, Hl2, H0.
    destruct (spawns w1); [right | left]; lia. }
  rewrite forEach_exec.
  destruct (@pass_over_fresh time Hyoung (points w3) [] w3 eq_refl Hall)
    as [done' [Hpts [Hold Hdone]]].
  cbn [length app] in Hpts. rewrite Hpts. split; [exact Hold|].
  rewrite Hdone. exact Hcount.
Qed.


End Generic.
End FixedFrame.

(* ------------------------------------------------------------------ *)
(** ** The fixed-lifespan sketch on doubles *)

Module FixedBinary64.
Import Sketch03 FixedFrame.

Section Engine.

Variables fsin fcos : Binary64.float -> Binary64.float.

#[local] Instance engine : JSNumber Binary64.float := binary64 fsin fcos.

Local Open Scope js_scope.

Lemma one_frame_is_young : (ofZ 0 + ofZ 1 / fps >=? POINT_LIFESPAN) = false.
Proof. vm_compute. reflexivity. Qed.


End Engine.

(** *** Closed runs, on the fixed engine *)

#[local] Existing Instance js64.

Local Open Scope js_scope.

Definition canvasWidth : Binary64.float := ofZ 1080.    (* settings.dimensions *)
Definition canvasHeight : Binary64.float := ofZ 1350.

Definition blank (r : nat -> Binary64.float)
  : World Binary64.float (Point Binary64.float) :=
  {| points := []; rng := r; cursor := 0; trace := [] |}.

Definition lcg : nat -> Binary64.float := MidiBinary64.lcg.

(** A generator whose 601st value, the one the first frame's
    [random.chance] reads after 150 new points, is 0. *)
Definition spawning (n : nat) : Binary64.float :=
  if Nat.eqb n 600 then ofZ 0 else lcg n.



(** The age after [n] increments. *)
Definition ageAfter (n : nat) (a : Binary64.float) : Binary64.float :=
  Nat.iter n (fun a => a + ofZ 1 / fps) a.

(** A state in the middle of a run: the 200 points [sketch] set up, 7200
    frames old (in doubles, 119.99999999999...: one frame short of
    [POINT_LIFESPAN]). *)
Definition init : World Binary64.float (Point Binary64.float) :=
  exec (sketch canvasWidth canvasHeight) (blank lcg).

Definition late : World Binary64.float (Point Binary64.float) :=
  {| points := map (fun p => setAge p (ageAfter 7200 (ofZ 0))) (points init);
     rng := lcg; cursor := cursor init + 7200; trace := [] |}.

(** The frame from [late], evaluated. *)
Lemma late_frame :
  let after := exec (render canvasWidth canvasHeight (MidiBinary64.secondsAt 7200))
                 late in
  length (points late) = 200
  /\ length (filter isCircle (trace after)) = 100
  /\ length (filter isSplice (trace after)) = 100
  /\ points after = odds (points late).
Proof. vm_compute. repeat split. Qed.

Lemma late_ages :
  map age (odds (points late)) = repeat (ageAfter 7200 (ofZ 0)) 100
  /\ (ageAfter 7200 (ofZ 0) + ofZ 1 / fps === ageAfter 7200 (ofZ 0)) = false
  /\ (ageAfter 7200 (ofZ 0) + ofZ 1 / fps >=? POINT_LIFESPAN) = true.
Proof. vm_compute. repeat split. Qed.

(** C3, at its failing input.  In the frame from [late] all 200 points are
    due.  The pass removes the point at index 0, which moves its neighbour
    into the slot the pass has just left; so it goes on with every other
    point only: 100 points are drawn and spliced out, and the 100 at the odd
    indices come through the frame untouched: not updated, not drawn, not
    aged. *)
Theorem C3_pass_skips_the_point_after_a_removed_one :
  let after := exec (render canvasWidth canvasHeight (MidiBinary64.secondsAt 7200))
                 late in
  length (points late) = 200
  /\ length (filter isCircle (trace after)) = 100
  /\ length (filter isSplice (trace after)) = 100
  /\ points after = odds (points late).
Proof. exact late_frame. Qed.

(** C6, at its failing input.  The 100 points that survive the frame from
    [late] were skipped by the pass: their age after the frame is their age
    before it, not that age plus 1/60. *)
Theorem C6_skipped_survivor_does_not_age :
  let after := exec (render canvasWidth canvasHeight (MidiBinary64.secondsAt 7200))
                 late in
  points after = odds (points late)
  /\ map age (points after) = repeat (ageAfter 7200 (ofZ 0)) 100
  /\ (ageAfter 7200 (ofZ 0) + ofZ 1 / fps === ageAfter 7200 (ofZ 0)) = false
  /\ (ageAfter 7200 (ofZ 0) + ofZ 1 / fps >=? POINT_LIFESPAN) = true.
Proof.
  intros after.
  destruct late_frame as [_ [_ [_ Hafter]]]. fold after in Hafter.
  destruct late_ages as [Hages [Hstep Hdue]].
  split; [exact Hafter|].
  split; [rewrite Hafter; exact Hages|].
  split; [exact Hstep | exact Hdue].
Qed.

End FixedBinary64.

(* ------------------------------------------------------------------ *)
(** ** The pairs a double loop visits *)

Section Pairs.

Context {P E : Type}.

Variable body : P -> P -> list E.

(** [for i] / [for j = i + 1], collecting what the body yields. *)
Fixpoint pairwise (l : list P) : list E :=
  match l with
  | [] => []
  | p1 :: rest => flat_map (body p1) rest ++ pairwise rest
  end.

(** The loop reaches exactly the pairs of indices [i < j]. *)
Lemma In_pairwise (e : E) (l : list P) :
  In e (pairwise l) <->
  exists i j p1 p2,
    i < j /\ nth_error l i = Some p1 /\ nth_error l j = Some p2
    /\ In e (body p1 p2).
Proof.
  induction l as [|p rest IH]; simpl.
  - split; [intros [] |].
    intros [i [j [p1 [p2 [_ [Hi _]]]]]]. destruct i; discriminate.
  - rewrite in_app_iff, in_flat_map, IH. split.
    + intros [[q [Hq He]] | [i [j [p1 [p2 [Hij [Hi [Hj He]]]]]]]].
      * apply In_nth_error in Hq. destruct Hq as [j Hj].
        exists 0, (S j), p, q. repeat split; [lia | exact Hj | exact He].
      * exists (S i), (S j), p1, p2. repeat split; [lia | exact Hi | exact Hj | exact He].
    + intros [i [j [p1 [p2 [Hij [Hi [Hj He]]]]]]].
      destruct j as [|j]; [lia|]. destruct i as [|i].
      * left. simpl in Hi, Hj. injection Hi as <-.
        exists p2. split; [exact (nth_error_In _ _ Hj) | exact He].
      * right. exists i, j, p1, p2. simpl in Hi, Hj.
        repeat split; [lia | exact Hi | exact Hj | exact He].
Qed.

End Pairs.

(* ------------------------------------------------------------------ *)
(** ** The sketches on real numbers *)

Module IdealFacts.

#[local] Existing Instance ideal.

Local Open Scope R_scope.

(** Unfolds the number interface at [ideal] down to the operations of [R]. *)
Ltac to_reals :=
  cbv [decimal ofZ neg add sub mul div Math_sin Math_cos Math_sqrt Math_round
       ideal Z.of_nat Pos.of_succ_nat Pos.succ Z.pow Z.pow_pos Pos.iter Z.mul
       Pos.mul Pos.add] in *.

Lemma ltb_spec (a b : R) : BoolSpec (a < b) (b <= a) (Ideal.ltb a b).
Proof.
  unfold Ideal.ltb. destruct (Rlt_dec a b); constructor; lra.
Qed.

Lemma leb_spec (a b : R) : BoolSpec (a <= b) (b < a) (Ideal.leb a b).
Proof.
  unfold Ideal.leb. destruct (Rle_dec a b); constructor; lra.
Qed.

(** The linear map of [math.mapRange], with the slope made explicit. *)
Lemma math_mapRange_linear (v a b c d : R) :
  math_mapRange v a b c d = c + (d - c) * ((v - a) / (b - a)).
Proof. unfold math_mapRange. to_reals. unfold Rdiv. ring. Qed.

Lemma threshold_formula (t : R) :
  Sketch03.dynamicThreshold t = 125 + 25 * sin (t * (5 / 10))
  /\ Sketch03Midi.dynamicThreshold t = 125 + 25 * sin (t * (5 / 10)).
Proof.
  unfold Sketch03.dynamicThreshold, Sketch03Midi.dynamicThreshold, math_mapRange.
  to_reals. split; field.
Qed.



(** Linear interpolation from [a] (at [s = 0]) to [b] (at [s = 1]). *)
Definition lerp (a b s : R) : R := a + (b - a) * s.

Lemma mapRange_from_zero (d thr a b : R) :
  math_mapRange d 0 thr a b = lerp a b (d / thr).
Proof.
  rewrite math_mapRange_linear. unfold lerp. rewrite !Rminus_0_r. reflexivity.
Qed.

Lemma gt_false (d thr : R) : d <= thr -> Ideal.ltb thr d = false.
Proof. intros Hd. destruct (ltb_spec thr d); [lra | reflexivity]. Qed.

Lemma gt_true (d thr : R) : d > thr -> Ideal.ltb thr d = true.
Proof. intros Hd. destruct (ltb_spec thr d); [reflexivity | lra]. Qed.

(** The opacity and the width of an edge between points [d] apart: linear
    in [d], from (0.6, 1.5) at [d = 0] to (0, 0.5) at [d = thr]. *)
Definition edgeOpacity (thr d : R) : R := lerp (6 / 10) 0 (d / thr).
Definition edgeWidth (thr d : R) : R := lerp (15 / 10) (5 / 10) (d / thr).

Section Fixed.

Import Sketch03.

Lemma fixed_connections_pairwise (thr : R) (l : list (Point R)) :
  connections thr l = pairwise (connect thr) l.
Proof. induction l as [|p rest IH]; simpl; [reflexivity | rewrite IH; reflexivity]. Qed.

Lemma fixed_connect_far (thr : R) (p1 p2 : Point R) :
  Vector.getDistance (pos p1) (pos p2) > thr -> connect thr p1 p2 = [].
Proof.
  intros Hd. unfold connect. change (?a >? ?b)%js with (Ideal.ltb b a).
  rewrite (gt_true Hd). reflexivity.
Qed.

Lemma fixed_connect_near (thr : R) (p1 p2 : Point R) :
  let d := Vector.getDistance (pos p1) (pos p2) in
  d <= thr ->
  connect thr p1 p2 =
  [StrokeLine (edgeOpacity thr d) (edgeWidth thr d)
     (Vector.x (pos p1)) (Vector.y (pos p1))
     (Vector.x (pos p2)) (Vector.y (pos p2))].
Proof.
  intros d Hd. unfold connect. change (?a >? ?b)%js with (Ideal.ltb b a).
  fold d. rewrite (gt_false Hd).
  change (ofZ 0) with 0. rewrite !mapRange_from_zero. reflexivity.
Qed.

Lemma fixed_In_connect (thr : R) (p1 p2 : Point R) (e : Effect R) :
  In e (connect thr p1 p2) <->
  Vector.getDistance (pos p1) (pos p2) <= thr
  /\ e = StrokeLine (edgeOpacity thr (Vector.getDistance (pos p1) (pos p2)))
           (edgeWidth thr (Vector.getDistance (pos p1) (pos p2)))
           (Vector.x (pos p1)) (Vector.y (pos p1))
           (Vector.x (pos p2)) (Vector.y (pos p2)).
Proof.
  destruct (Rle_or_lt (Vector.getDistance (pos p1) (pos p2)) thr) as [Hd|Hd].
  - rewrite (fixed_connect_near p1 p2 Hd). cbn [In]. split.
    + intros [He|[]]. split; [exact Hd | symmetry; exact He].
    + intros [_ He]. left. symmetry. exact He.
  - rewrite (fixed_connect_far p1 p2 Hd). cbn [In]. split; [intros [] | intros [Hle _]; lra].
Qed.

Lemma fixed_edges (thr : R) (l : list (Point R)) (e : Effect R) :
  In e (connections thr l) <->
  exists i j p1 p2,
    (i < j)%nat /\ nth_error l i = Some p1 /\ nth_error l j = Some p2
    /\ Vector.getDistance (pos p1) (pos p2) <= thr
    /\ e = StrokeLine (edgeOpacity thr (Vector.getDistance (pos p1) (pos p2)))
             (edgeWidth thr (Vector.getDistance (pos p1) (pos p2)))
             (Vector.x (pos p1)) (Vector.y (pos p1))
             (Vector.x (pos p2)) (Vector.y (pos p2)).
Proof.
  rewrite fixed_connections_pairwise, In_pairwise. split;
    intros [i [j [p1 [p2 [Hij [Hi [Hj He]]]]]]]; exists i, j, p1, p2;
    (split; [exact Hij | split; [exact Hi | split; [exact Hj |]]]).
  - apply fixed_In_connect. exact He.
  - apply fixed_In_connect in He. exact He.
Qed.

End Fixed.

Section Midi.

Import Sketch03Midi.

Lemma midi_connections_pairwise (thr : R) (l : list (Point R)) :
  connections thr l = pairwise (connect thr) l.
Proof. induction l as [|p rest IH]; simpl; [reflexivity | rewrite IH; reflexivity]. Qed.

Lemma midi_connect_far (thr : R) (p1 p2 : Point R) :
  Vector.getDistance (pos p1) (pos p2) > thr -> connect thr p1 p2 = [].
Proof.
  intros Hd. unfold connect. change (?a >? ?b)%js with (Ideal.ltb b a).
  rewrite (gt_true Hd). reflexivity.
Qed.

Lemma midi_connect_near (thr : R) (p1 p2 : Point R) :
  let d := Vector.getDistance (pos p1) (pos p2) in
  d <= thr ->
  connect thr p1 p2 =
  [StrokeLine (edgeOpacity thr d) (edgeWidth thr d)
     (Vector.x (pos p1)) (Vector.y (pos p1))
     (Vector.x (pos p2)) (Vector.y (pos p2))].
Proof.
  intros d Hd. unfold connect. change (?a >? ?b)%js with (Ideal.ltb b a).
  fold d. rewrite (gt_false Hd).
  change (ofZ 0) with 0. rewrite !mapRange_from_zero. reflexivity.
Qed.

Lemma midi_In_connect (thr : R) (p1 p2 : Point R) (e : Effect R) :
  In e (connect thr p1 p2) <->
  Vector.getDistance (pos p1) (pos p2) <= thr
  /\ e = StrokeLine (edgeOpacity thr (Vector.getDistance (pos p1) (pos p2)))
           (edgeWidth thr (Vector.getDistance (pos p1) (pos p2)))
           (Vector.x (pos p1)) (Vector.y (pos p1))
           (Vector.x (pos p2)) (Vector.y (pos p2)).
Proof.
  destruct (Rle_or_lt (Vector.getDistance (pos p1) (pos p2)) thr) as [Hd|Hd].
  - rewrite (midi_connect_near p1 p2 Hd). cbn [In]. split.
    + intros [He|[]]. split; [exact Hd | symmetry; exact He].
    + intros [_ He]. left. symmetry. exact He.
  - rewrite (midi_connect_far p1 p2 Hd). cbn [In]. split; [intros [] | intros [Hle _]; lra].
Qed.

Lemma midi_edges (thr : R) (l : list (Point R)) (e : Effect R) :
  In e (connections thr l) <->
  exists i j p1 p2,
    (i < j)%nat /\ nth_error l i = Some p1 /\ nth_error l j = Some p2
    /\ Vector.getDistance (pos p1) (pos p2) <= thr
    /\ e = StrokeLine (edgeOpacity thr (Vector.getDistance (pos p1) (pos p2)))
             (edgeWidth thr (Vector.getDistance (pos p1) (pos p2)))
             (Vector.x (pos p1)) (Vector.y (pos p1))
             (Vector.x (pos p2)) (Vector.y (pos p2)).
Proof.
  rewrite midi_connections_pairwise, In_pairwise. split;
    intros [i [j [p1 [p2 [Hij [Hi [Hj He]]]]]]]; exists i, j, p1, p2;
    (split; [exact Hij | split; [exact Hi | split; [exact Hj |]]]).
  - apply midi_In_connect. exact He.
  - apply midi_In_connect in He. exact He.
Qed.

End Midi.

Lemma getDistance_euclidean (a b : Vector.t R) :
  Vector.getDistance a b =
  sqrt ((Vector.x a - Vector.x b) * (Vector.x a - Vector.x b)
        + (Vector.y a - Vector.y b) * (Vector.y a - Vector.y b)).
Proof. reflexivity. Qed.

Lemma edge_at_zero (thr : R) :
  edgeOpacity thr 0 = 6 / 10 /\ edgeWidth thr 0 = 15 / 10.
Proof. unfold edgeOpacity, edgeWidth, lerp, Rdiv. split; ring. Qed.

Lemma edge_at_threshold (thr : R) :
  thr <> 0 -> edgeOpacity thr thr = 0 /\ edgeWidth thr thr = 5 / 10.
Proof. intros Hthr. unfold edgeOpacity, edgeWidth, lerp. split; field; exact Hthr. Qed.


(** *** Rounding *)

Lemma round_between (x : R) (a b : Z) :
  IZR a <= x <= IZR b -> IZR a <= Ideal.round x <= IZR b.
Proof.
  intros [Ha Hb]. unfold Ideal.round.
  destruct (base_Int_part (x + / 2)) as [Hlo Hhi].
  set (n := Int_part (x + / 2)) in *.
  split; apply IZR_le.
  - assert (Hlt : IZR a < IZR (n + 1)) by (rewrite plus_IZR; lra).
    apply lt_IZR in Hlt. lia.
  - assert (Hlt : IZR n < IZR (b + 1)) by (rewrite plus_IZR; lra).
    apply lt_IZR in Hlt. lia.
Qed.

Lemma round_IZR (n : Z) : Ideal.round (IZR n) = IZR n.
Proof.
  pose proof (@round_between (IZR n) n n) as Hn. lra.
Qed.

(** [Math.round] is an integer at distance at most 1/2. *)
Lemma round_nearest (x : R) :
  exists n : Z, Ideal.round x = IZR n /\ x - 1 / 2 < IZR n <= x + 1 / 2.
Proof.
  exists (Int_part (x + / 2)). split; [reflexivity|].
  destruct (base_Int_part (x + / 2)) as [Hlo Hhi]. lra.
Qed.

(** *** The note mapping *)

Section NoteMapping.

Import Sketch03Midi MidiFrame.

Lemma mapRange_round (v a b c d : R) :
  mapRange v a b c d = Ideal.round ((v - a) * (d - c) / (b - a) + c).
Proof. reflexivity. Qed.

Lemma mapRange_at_min (size : R) (c d : Z) :
  mapRange 0 0 size (IZR c) (IZR d) = IZR c.
Proof.
  rewrite mapRange_round.
  replace ((0 - 0) * (IZR d - IZR c) / (size - 0) + IZR c) with (IZR c)
    by (unfold Rdiv; ring).
  apply round_IZR.
Qed.

Lemma mapRange_at_max (size : R) (c d : Z) :
  0 < size -> mapRange size 0 size (IZR c) (IZR d) = IZR d.
Proof.
  intros Hsize. rewrite mapRange_round.
  replace ((size - 0) * (IZR d - IZR c) / (size - 0) + IZR c) with (IZR d)
    by (field; lra).
  apply round_IZR.
Qed.

Lemma mapRange_between (v size : R) (c d : Z) :
  0 < size -> 0 <= v <= size -> (c <= d)%Z ->
  IZR c <= mapRange v 0 size (IZR c) (IZR d) <= IZR d.
Proof.
  intros Hsize [Hlo Hhi] Hcd. rewrite mapRange_round. apply round_between.
  apply IZR_le in Hcd.
  replace ((v - 0) * (IZR d - IZR c) / (size - 0) + IZR c)
    with (IZR c + (IZR d - IZR c) * (v / size)) by (field; lra).
  assert (Hs : 0 <= v / size <= 1).
  { split.
    - apply Rmult_le_pos; [exact Hlo | left; apply Rinv_0_lt_compat; exact Hsize].
    - apply (Rmult_le_reg_r size); [exact Hsize|].
      replace (v / size * size) with v by (field; lra). lra. }
  split; nra.
Qed.

(** After [update] the point is on the canvas. *)
Lemma update_on_canvas (p : Point R) (width height time : R) :
  0 <= width -> 0 <= height ->
  0 <= Vector.x (pos (update p width height time)) <= width
  /\ 0 <= Vector.y (pos (update p width height time)) <= height.
Proof.
  intros Hw Hh. unfold update. cbn [pos Vector.x Vector.y].
  cbv [add lt ofZ ideal].
  split;
    repeat match goal with
           | |- context [Ideal.ltb ?a ?b] => destruct (ltb_spec a b)
           end; lra.
Qed.

(** A message as the sketch maps it: note-on or note-off, the note in
    [36, 72], the velocity 0 or in [40, 100]. *)
Definition mapped (e : Effect R) : Prop :=
  match e with
  | Send [status; note; velocity] =>
      (status = 144 \/ status = 128)
      /\ 36 <= note <= 72
      /\ (velocity = 0 \/ 40 <= velocity <= 100)
  | Send _ => False
  | _ => True
  end.

(** A message a MIDI device accepts: both data bytes in [0, 127]. *)
Definition midiValid (e : Effect R) : Prop :=
  match e with
  | Send [status; note; velocity] => 0 <= note <= 127 /\ 0 <= velocity <= 127
  | Send _ => False
  | _ => True
  end.

Lemma mapped_midiValid (e : Effect R) : mapped e -> midiValid e.
Proof.
  destruct e as [| | | data |]; simpl; try exact (fun H => H).
  destruct data as [|s [|n [|v [|? ?]]]]; try exact (fun H => H).
  intros [_ [Hn Hv]]. split; lra.
Qed.

Lemma painting_mapped (e : Effect R) : painting e -> mapped e.
Proof. destruct e; simpl; try exact (fun _ => I); discriminate. Qed.

Lemma grows_weaken {P : Type} (Q1 Q2 : Effect R -> Prop) tr0 (w : World R P) :
  (forall e, Q1 e -> Q2 e) -> grows Q1 tr0 w -> grows Q2 tr0 w.
Proof.
  intros Himp [ev [Hev Hall]]. exists ev. split; [exact Hev|].
  revert Hall. apply Forall_impl. exact Himp.
Qed.

Lemma callback_mapped (midiOutput : option MIDIOutput) (width height time : R)
    (p : Point R) (k : nat) tr0 :
  0 < width -> 0 < height ->
  preserves (grows mapped tr0) (callback midiOutput width height time p k).
Proof.
  intros Hw Hh w [ev [Hev Hall]].
  change (grows mapped tr0 (exec (callback midiOutput width height time p k) w)).
  rewrite midi_callback_exec.
  pose proof (@update_on_canvas p width height time (Rlt_le _ _ Hw) (Rlt_le _ _ Hh))
    as [Hx Hy].
  set (p1 := update p width height time) in *.
  assert (Hnote : 36 <= midiNote width p1 <= 72).
  { unfold midiNote. apply (@mapRange_between _ width 36 72); [exact Hw | exact Hx | lia]. }
  assert (Hvel : 40 <= velocity height p1 <= 100).
  { unfold velocity. apply (@mapRange_between _ height 40 100); [exact Hh | exact Hy | lia]. }
  eexists. cbn [trace]. split.
  - rewrite Hev, <- app_assoc. reflexivity.
  - apply Forall_app. split; [exact Hall|].
    constructor; [exact I|].
    apply Forall_app. split.
    + unfold noteOn. destruct (_ && _); [|constructor].
      constructor; [|constructor].
      split; [left; reflexivity | split; [exact Hnote | right; exact Hvel]].
    + unfold noteOff. destruct (expired _ _); [|constructor].
      constructor; [|constructor; [exact I | constructor]].
      split; [right; reflexivity | split; [exact Hnote | left; reflexivity]].
Qed.

End NoteMapping.


Definition still : World R (Sketch03Midi.Point R) :=
  {| points := []; rng := fun _ => 1 / 2; cursor := 0; trace := [] |}.


End IdealFacts.

(* ------------------------------------------------------------------ *)
(** ** More of the array: splicing and passes that run off the end *)

Section ArrayFacts.

Context {T P : Type}.

Lemma splice1_middle (done todo : list P) (p : P) :
  splice1 (length done) (done ++ p :: todo) = done ++ todo.
Proof.
  induction done as [|a done IH]; simpl; [reflexivity|]. rewrite IH. reflexivity.
Qed.

Lemma splice1_store (k : nat) (p : P) (l : list P) :
  splice1 k (store k p l) = splice1 k l.
Proof.
  revert k. induction l as [|a l IH]; intros [|k]; simpl; try reflexivity.
  rewrite IH. reflexivity.
Qed.

Lemma Forall_store (Q : P -> Prop) (k : nat) (p : P) (l : list P) :
  Q p -> Forall Q l -> Forall Q (store k p l).
Proof.
  intros Hp. revert k. induction l as [|a l IH]; intros k Hl; destruct k; simpl;
    try exact Hl; inversion Hl; subst; constructor; auto.
Qed.

Lemma Forall_splice1 (Q : P -> Prop) (k : nat) (l : list P) :
  Forall Q l -> Forall Q (splice1 k l).
Proof.
  revert k. induction l as [|a l IH]; intros k Hl; destruct k; simpl;
    try exact Hl; inversion Hl; subst; [assumption | constructor; auto].
Qed.

Lemma length_splice1 (k : nat) (l : list P) :
  k < length l -> S (length (splice1 k l)) = length l.
Proof.
  revert k. induction l as [|a l IH]; intros k Hk; simpl in *; [lia|].
  destruct k as [|k]; [reflexivity|]. simpl. rewrite IH; [reflexivity | lia].
Qed.

(** Past the end of the array [forEach] calls nothing. *)
Lemma forEach_from_past_end (callback : P -> nat -> M T P unit) (len k : nat)
    (w : World T P) :
  length (points w) <= k -> exec (forEach_from callback len k) w = w.
Proof.
  revert k. induction len as [|len IH]; intros k Hk; [reflexivity|].
  rewrite forEach_from_step.
  replace (nth_error (points w) k) with (@None P)
    by (symmetry; apply nth_error_None; exact Hk).
  apply IH. lia.
Qed.

End ArrayFacts.

(* ------------------------------------------------------------------ *)
(** ** The MIDI sketch: the pass as a function of the array *)

Module MidiPass.
Import Sketch03Midi MidiFrame.

Section Generic.

Context {T : Type} `{JSNumber T}.
Local Open Scope js_scope.

Variable midiOutput : option MIDIOutput.
Variables width height time : T.

(** What the pass leaves of an array: a point that has not expired is
    moved and aged; an expired point is dropped, and the point behind it,
    which takes its index, goes through unvisited. *)
Fixpoint sweep (l : list (Point T)) : list (Point T) :=
  match l with
  | [] => []
  | p :: rest =>
      let p2 := aged width height p time in
      if expired midiOutput p2 then
        match rest with
        | [] => []
        | q :: rest' => q :: sweep rest'
        end
      else p2 :: sweep rest
  end.

Lemma forEach_from_sweep (len : nat) :
  forall (rest done : list (Point T)) (w : World T (Point T)),
    points w = done ++ rest ->
    length rest <= len ->
    points (exec (forEach_from (callback midiOutput width height time)
                    len (length done)) w)
    = done ++ sweep rest.
Proof.
  induction len as [|len IH]; intros rest done w Hw Hlen.
  - destruct rest; [|simpl in Hlen; lia]. exact Hw.
  - rewrite forEach_from_step, Hw. destruct rest as [|p rest].
    + rewrite app_nil_r, (proj2 (nth_error_None done (length done)) (le_n _)).
      rewrite forEach_from_past_end; [rewrite Hw; reflexivity|].
      rewrite Hw, app_nil_r. lia.
    + rewrite nth_error_middle, midi_callback_exec.
      cbn [sweep]. rewrite Hw, store_middle.
      set (p2 := aged width height p time).
      destruct (expired midiOutput p2).
      * rewrite splice1_middle.
        set (w1 := {| points := done ++ rest; rng := rng w; cursor := cursor w;
                      trace := _ |}).
        destruct rest as [|q rest'].
        -- rewrite forEach_from_past_end; [reflexivity|].
           unfold w1. cbn [points]. rewrite app_nil_r. lia.
        -- replace (S (length done)) with (length (done ++ [q]))
             by (rewrite length_app; cbn [length]; lia).
           rewrite (IH rest' (done ++ [q]) w1).
           ++ rewrite <- app_assoc. reflexivity.
           ++ unfold w1. cbn [points]. rewrite <- app_assoc. reflexivity.
           ++ cbn [length] in Hlen. lia.
      * set (w1 := {| points := done ++ p2 :: rest; rng := rng w;
                      cursor := cursor w; trace := _ |}).
        replace (S (length done)) with (length (done ++ [p2]))
          by (rewrite length_app; cbn [length]; lia).
        rewrite (IH rest (done ++ [p2]) w1).
        -- rewrite <- app_assoc. reflexivity.
        -- unfold w1. cbn [points]. rewrite <- app_assoc. reflexivity.
        -- cbn [length] in Hlen. lia.
Qed.

Lemma forEach_sweep (w : World T (Point T)) :
  points (exec (forEach (callback midiOutput width height time)) w)
  = sweep (points w).
Proof.
  rewrite forEach_exec.
  exact (@forEach_from_sweep (length (points w)) (points w) [] w eq_refl (le_n _)).
Qed.

Lemma sweep_keeps_half_bounded (n : nat) :
  forall l : list (Point T), length l <= n -> length l <= 2 * length (sweep l) + 1.
Proof.
  induction n as [|n IH]; intros l Hn.
  - destruct l; simpl in *; lia.
  - destruct l as [|p rest]; [simpl; lia|]. cbn [sweep].
    destruct (expired midiOutput (aged width height p time)).
    + destruct rest as [|q rest']; [simpl; lia|].
      cbn [length] in *. specialize (IH rest'). lia.
    + cbn [length] in *. specialize (IH rest). lia.
Qed.

Lemma sweep_without_expiry (l : list (Point T)) :
  Forall (fun p => expired midiOutput (aged width height p time) = false) l ->
  sweep l = map (fun p => aged width height p time) l.
Proof.
  induction l as [|p rest IH]; intros Hl; [reflexivity|].
  inversion Hl as [|p' rest' Hp Hrest]; subst. cbn [sweep map].
  rewrite Hp, (IH Hrest). reflexivity.
Qed.

(** A point below its lifespan. *)
Definition young (p : Point T) : Prop := (age p >=? lifespan p) = false.

Lemma sweep_young_bounded (n : nat) :
  midiOutput <> None ->
  forall l : list (Point T),
    length l <= n -> Forall young l -> Forall young (sweep l).
Proof.
  intros Hout. induction n as [|n IH]; intros l Hn Hl.
  - destruct l; [constructor | simpl in Hn; lia].
  - destruct l as [|p rest]; [constructor|]. cbn [sweep].
    inversion Hl as [|p' rest' Hp Hrest]; subst.
    destruct (expired midiOutput (aged width height p time)) eqn:Hexp.
    + destruct rest as [|q rest']; [constructor|].
      inversion Hrest as [|q' rest'' Hq Hrest']; subst.
      constructor; [exact Hq|]. apply IH; [cbn [length] in Hn; lia | exact Hrest'].
    + constructor; [|apply IH; [cbn [length] in Hn; lia | exact Hrest]].
      unfold expired in Hexp. unfold young.
      destruct midiOutput; [|contradiction Hout; reflexivity].
      cbn [truthy] in Hexp. rewrite andb_true_r in Hexp. exact Hexp.
Qed.

Lemma forEach_young (w : World T (Point T)) :
  midiOutput <> None ->
  Forall young (points w) ->
  Forall young (points (exec (forEach (callback midiOutput width height time)) w)).
Proof.
  intros Hout Hw. rewrite forEach_sweep.
  apply (@sweep_young_bounded (length (points w))); [exact Hout | apply le_n | exact Hw].
Qed.

End Generic.

Section Results.

Context {T : Type} `{JSNumber T}.
Local Open Scope js_scope.

(** The pass of [points.forEach], splices included, computes [sweep]; so
    a frame leaves [sweep] of the array its prologue has topped up. *)
Theorem pass_is_sweep (midiOutput : option MIDIOutput) (width height time : T)
    (w : World T (Point T)) :
  points (exec (forEach (callback midiOutput width height time)) w)
    = sweep midiOutput width height time (points w)
  /\ points (exec (render midiOutput width height time) w)
     = sweep midiOutput width height time
         (points (exec (prologue width height time) w)).
Proof.
  split; [apply forEach_sweep | rewrite render_prologue; apply forEach_sweep].
Qed.

(** One pass cannot empty the array by more than half: of [n] points at
    least [(n - 1) / 2] are left, since an expired point shields the next
    one. *)
Theorem pass_keeps_half (midiOutput : option MIDIOutput) (width height time : T)
    (w : World T (Point T)) :
  length (points w)
  <= 2 * length (points (exec (forEach (callback midiOutput width height time)) w))
     + 1.
Proof.
  rewrite forEach_sweep.
  apply (@sweep_keeps_half_bounded _ _ midiOutput width height time
           (length (points w))).
  apply le_n.
Qed.

(** While no point reaches its lifespan the pass visits every point once,
    in order: each is moved and aged, none is removed or skipped. *)
Theorem pass_without_expiry_ages_every_point
    (midiOutput : option MIDIOutput) (width height time : T)
    (w : World T (Point T)) :
  Forall (fun p => (age p + ofZ 1 / fps >=? lifespan p) = false) (points w) ->
  points (exec (forEach (callback midiOutput width height time)) w)
  = map (fun p => aged width height p time) (points w).
Proof.
  intros Hw. rewrite forEach_sweep. apply sweep_without_expiry.
  revert Hw. apply Forall_impl. intros p Hp.
  unfold expired. rewrite age_aged, lifespan_aged, Hp. reflexivity.
Qed.

(** With a MIDI output present the pass leaves no expired point behind,
    provided none was there when it started: a visited point that has
    reached its lifespan is spliced out, and a point the pass skips keeps
    the age it had. *)
Theorem pass_with_output_leaves_no_expired_point
    (output : MIDIOutput) (width height time : T) (w : World T (Point T)) :
  Forall (fun p => (age p >=? lifespan p) = false) (points w) ->
  Forall (fun p => (age p >=? lifespan p) = false)
    (points (exec (forEach (callback (Some output) width height time)) w)).
Proof.
  intros Hw. apply (@forEach_young _ _ (Some output)); [discriminate | exact Hw].
Qed.

End Results.
End MidiPass.

(* ------------------------------------------------------------------ *)
(** ** The MIDI sketch: set-up, floor, background, silence *)

Module MidiSetup.
Import Sketch03Midi MidiFrame.

Section Generic.

Context {T : Type} `{JSNumber T}.
Local Open Scope js_scope.

(** [onMIDISuccess] assigns every port in turn, so the last one listed is
    the one kept; with no port [midiOutput] stays as it was. *)
Theorem onMIDISuccess_keeps_the_last_port
    (outputs : list MIDIOutput) (output : MIDIOutput)
    (midiOutput : option MIDIOutput) :
  onMIDISuccess [] midiOutput = midiOutput
  /\ onMIDISuccess (outputs ++ [output]) midiOutput = Some output.
Proof.
  split; [reflexivity|]. unfold onMIDISuccess. rewrite fold_left_app. reflexivity.
Qed.

Variables width height : T.

(** The point [new Point(x, y)] makes, with [x] and [y] drawn as the
    sketch draws them, from the values [r c], ..., [r (4 + c)] of the
    generator. *)
Definition pointAt (r : nat -> T) (c : nat) : Point T :=
  {| pos := Vector.new (r c * (width - ofZ 0) + ofZ 0)
                       (r (1 + c)%nat * (height - ofZ 0) + ofZ 0);
     vel := Vector.new
              (r (2 + c)%nat * (decimal 2 1 - - decimal 2 1) + - decimal 2 1)
              (r (3 + c)%nat * (decimal 2 1 - - decimal 2 1) + - decimal 2 1);
     radius := ofZ 3;
     age := ofZ 0;
     lifespan := r (4 + c)%nat * (POINT_LIFESPAN_MAX - POINT_LIFESPAN_MIN)
                 + POINT_LIFESPAN_MIN |}.

Definition made (r : nat -> T) (p : Point T) : Prop := exists c, p = pointAt r c.

Lemma made_fresh (r : nat -> T) (l : list (Point T)) :
  Forall (made r) l -> Forall (fun p => age p = ofZ 0) l.
Proof. apply Forall_impl. intros p [c ->]. reflexivity. Qed.

(** The step of the top-up loop, of the spawn and of the set-up: one new
    point at the end of the array, five values of the generator used. *)
Definition addPoint : M T (Point T) unit :=
  bind (random_range (ofZ 0) width) (fun x =>
  bind (random_range (ofZ 0) height) (fun y =>
  bind (newPoint x y) (fun p => push p))).

Lemma addPoint_world (w : World T (Point T)) :
  exec addPoint w =
  {| points := points w ++ [pointAt (rng w) (cursor w)]; rng := rng w;
     cursor := 5 + cursor w; trace := trace w |}.
Proof. reflexivity. Qed.

Lemma midi_topUp_step (fuel : nat) (w : World T (Point T)) :
  exec (topUp (S fuel) width height) w =
  if Nat.ltb (length (points w)) MIN_ACTIVE_POINTS
  then exec (topUp fuel width height) (exec addPoint w)
  else w.
Proof.
  unfold exec at 1. simpl. unfold bind at 1. unfold getPoints at 1.
  destruct (Nat.ltb (length (points w)) MIN_ACTIVE_POINTS); reflexivity.
Qed.

Lemma midi_topUp_points (fuel : nat) (w : World T (Point T)) :
  (MIN_ACTIVE_POINTS - length (points w))%nat <= fuel ->
  exists added,
    points (exec (topUp fuel width height) w) = points w ++ added
    /\ Forall (made (rng w)) added
    /\ length added = (MIN_ACTIVE_POINTS - length (points w))%nat
    /\ trace (exec (topUp fuel width height) w) = trace w
    /\ rng (exec (topUp fuel width height) w) = rng w.
Proof.
  revert w. induction fuel as [|fuel IH]; intros w Hfuel.
  - exists []. rewrite app_nil_r.
    split; [reflexivity | split; [constructor | split; [cbn [length]; lia|]]].
    split; reflexivity.
  - rewrite midi_topUp_step.
    destruct (Nat.ltb_spec (length (points w)) MIN_ACTIVE_POINTS) as [Hlt|Hge].
    + destruct (IH (exec addPoint w)) as [added [Hadd [Hmade [Hlen [Htr Hrng]]]]].
      { rewrite addPoint_world. cbn [points]. rewrite length_app. cbn [length]. lia. }
      exists (pointAt (rng w) (cursor w) :: added).
      rewrite Hadd, Htr, Hrng, addPoint_world. cbn [points trace rng].
      rewrite <- app_assoc. cbn [app].
      split; [reflexivity|].
      split.
      { constructor; [exists (cursor w); reflexivity|].
        rewrite addPoint_world in Hmade. exact Hmade. }
      split; [|split; reflexivity].
      cbn [length]. rewrite Hlen, addPoint_world. cbn [points]. rewrite length_app.
      cbn [length]. lia.
    + exists []. rewrite app_nil_r.
      split; [reflexivity | split; [constructor | split; [cbn [length]; lia|]]].
      split; reflexivity.
Qed.

Lemma midi_spawn_points (w : World T (Point T)) :
  exists added,
    points (exec (spawn width height) w) = points w ++ added
    /\ Forall (made (rng w)) added
    /\ length added <= 1
    /\ trace (exec (spawn width height) w) = trace w
    /\ rng (exec (spawn width height) w) = rng w.
Proof.
  unfold spawn, exec, bind, random_chance, random_value, ret. simpl.
  destruct (rng w (cursor w) <? THOUGHTS_PER_SECOND / ofZ 60).
  - exists [pointAt (rng w) (S (cursor w))]. simpl.
    split; [reflexivity|].
    split; [constructor; [eexists; reflexivity | constructor]|].
    split; [lia | split; reflexivity].
  - exists []. simpl. rewrite app_nil_r.
    split; [reflexivity | split; [constructor | split; [lia | split; reflexivity]]].
Qed.

(** The floor.  Whatever the array holds, the top-up loop leaves the points
    that were there in place, appends [MIN_ACTIVE_POINTS - n] fresh ones when
    there were [n] of them (none when [n] is large enough), and so hands on
    at least [MIN_ACTIVE_POINTS] points. *)
Theorem topUp_reaches_the_floor (w : World T (Point T)) :
  exists added,
    points (exec (topUp MIN_ACTIVE_POINTS width height) w) = points w ++ added
    /\ Forall (fun p => age p = ofZ 0) added
    /\ length added = (150 - length (points w))%nat
    /\ 150 <= length (points (exec (topUp MIN_ACTIVE_POINTS width height) w)).
Proof.
  destruct (@midi_topUp_points MIN_ACTIVE_POINTS w) as [added [Hadd [Hmade [Hlen _]]]];
    [lia|].
  exists added.
  split; [exact Hadd | split; [exact (made_fresh Hmade) | split; [exact Hlen|]]].
  rewrite Hadd, length_app, Hlen. unfold MIN_ACTIVE_POINTS. lia.
Qed.

(** The prologue of a frame, in one piece: the old points stay in place, at
    least [MIN_ACTIVE_POINTS] points reach the pass, and the canvas is faded
    once, before any line. *)
Lemma prologue_world (time : T) (w : World T (Point T)) :
  exists added strokes,
    points (exec (prologue width height time) w) = points w ++ added
    /\ Forall (made (rng w)) added
    /\ rng (exec (prologue width height time) w) = rng w
    /\ MIN_ACTIVE_POINTS <= length (points w ++ added)
    /\ trace (exec (prologue width height time) w)
       = trace w
           ++ FillRect (ofZ 10) (ofZ 2) (ofZ 2) (decimal 2 1)
                (ofZ 0) (ofZ 0) width height
           :: strokes
    /\ strokes = connections (dynamicThreshold time) (points w ++ added).
Proof.
  unfold prologue. rewrite !exec_bind.
  set (w0 := snd (emit _ w)).
  set (w1 := snd (topUp MIN_ACTIVE_POINTS width height w0)).
  set (w2 := snd (spawn width height w1)).
  destruct (@midi_topUp_points MIN_ACTIVE_POINTS w0)
    as [added1 [H1 [Hf1 [Hl1 [Ht1 Hr1]]]]]; [lia|].
  change (points w1 = points w0 ++ added1) in H1.
  change (trace w1 = trace w0) in Ht1.
  change (rng w1 = rng w) in Hr1.
  change (rng w0) with (rng w) in Hf1.
  destruct (midi_spawn_points w1) as [added2 [H2 [Hf2 [Hl2 [Ht2 Hr2]]]]].
  change (points w2 = points w1 ++ added2) in H2.
  change (trace w2 = trace w1) in Ht2.
  change (rng w2 = rng w1) in Hr2.
  rewrite Hr1 in Hf2.
  exists (added1 ++ added2), (connections (dynamicThreshold time) (points w2)).
  assert (Hpts : points w2 = points w ++ added1 ++ added2).
  { rewrite H2, H1, <- app_assoc. reflexivity. }
  split; [exact Hpts|].
  split; [apply Forall_app; split; assumption|].
  split; [cbn [exec snd emitAll getPoints fst rng]; rewrite Hr2; exact Hr1|].
  split.
  { change (points w0) with (points w) in Hl1.
    rewrite !length_app, Hl1. lia. }
  split.
  - cbn [exec snd emitAll getPoints fst trace]. rewrite Ht2, Ht1.
    unfold w0. cbn [emit snd trace]. rewrite <- app_assoc. reflexivity.
  - rewrite Hpts. reflexivity.
Qed.

(** *** Set-up *)

Lemma initialize_step (n : nat) (w : World T (Point T)) :
  exec (initialize (S n) width height) w
  = exec (initialize n width height) (exec addPoint w).
Proof. reflexivity. Qed.

Lemma initialize_world (n : nat) (w : World T (Point T)) :
  exists added,
    exec (initialize n width height) w =
    {| points := points w ++ added; rng := rng w; cursor := 5 * n + cursor w;
       trace := trace w |}
    /\ Forall (made (rng w)) added
    /\ length added = n.
Proof.
  revert w. induction n as [|n IH]; intros w.
  - exists []. rewrite app_nil_r. destruct w.
    split; [reflexivity | split; [constructor | reflexivity]].
  - rewrite initialize_step.
    destruct (IH (exec addPoint w)) as [added [Hrun [Hmade Hlen]]].
    exists (pointAt (rng w) (cursor w) :: added).
    rewrite Hrun, addPoint_world. cbn [points rng cursor trace].
    rewrite <- app_assoc. cbn [app].
    split; [f_equal; lia|].
    split; [|cbn [length]; rewrite Hlen; reflexivity].
    constructor; [exists (cursor w); reflexivity|].
    rewrite addPoint_world in Hmade. exact Hmade.
Qed.

(** [sketch] starts from an empty array whatever was there, and sets up
    [INITIAL_POINTS] = 300 points of age 0, reading five values of the
    generator for each and painting nothing. *)
Theorem sketch_sets_up_300_fresh_points (w : World T (Point T)) :
  exists pts,
    exec (sketch width height) w =
    {| points := pts; rng := rng w; cursor := 1500 + cursor w; trace := trace w |}
    /\ length pts = 300
    /\ Forall (fun p => age p = ofZ 0) pts.
Proof.
  unfold sketch. rewrite exec_bind.
  destruct (initialize_world INITIAL_POINTS (snd (setPoints [] w)))
    as [added [Hrun [Hmade Hlen]]].
  exists added. rewrite Hrun. cbn [setPoints snd points rng cursor trace app].
  split; [reflexivity | split; [exact Hlen | exact (made_fresh Hmade)]].
Qed.

(** *** The order of a frame *)

Definition isStroke (e : Effect T) : bool :=
  match e with
  | StrokeLine _ _ _ _ _ _ => true
  | _ => false
  end.

(** What the pass may do: draw a point, send a message, splice. *)
Definition ofThePass (e : Effect T) : Prop :=
  match e with
  | FillCircle _ _ _ _ | Send _ | Splice _ => True
  | _ => False
  end.

Lemma connect_strokes thr (p1 p2 : Point T) :
  Forall (fun e => isStroke e = true) (connect thr p1 p2).
Proof. unfold connect. destruct (_ >? _); repeat constructor. Qed.

Lemma connections_strokes thr (l : list (Point T)) :
  Forall (fun e => isStroke e = true) (connections thr l).
Proof.
  induction l as [|p1 rest IH]; simpl; [constructor|].
  apply Forall_app. split; [|exact IH].
  apply Forall_flat_map. apply Forall_forall. intros q _. apply connect_strokes.
Qed.

Lemma callback_ofThePass (midiOutput : option MIDIOutput) (time : T)
    (q : Point T) (k : nat) tr0 :
  preserves (grows ofThePass tr0) (callback midiOutput width height time q k).
Proof.
  intros w [ev [Hev Hall]].
  change (grows ofThePass tr0 (exec (callback midiOutput width height time q k) w)).
  rewrite midi_callback_exec. eexists. cbn [trace]. split.
  - rewrite Hev, <- app_assoc. reflexivity.
  - apply Forall_app. split; [exact Hall|].
    constructor; [exact I|]. apply Forall_app. split.
    + unfold noteOn. destruct (_ && _); repeat constructor.
    + unfold noteOff. destruct (expired _ _); repeat constructor.
Qed.

(** A frame paints in this order: the translucent rectangle over the whole
    canvas, once; then the connecting lines of the array as topped up; then
    what the pass does point by point (circles, messages, splices). *)
Theorem frame_fades_then_connects_then_passes
    (midiOutput : option MIDIOutput) (time : T) (w : World T (Point T)) :
  exists strokes passed,
    trace (exec (render midiOutput width height time) w)
    = trace w
        ++ FillRect (ofZ 10) (ofZ 2) (ofZ 2) (decimal 2 1)
             (ofZ 0) (ofZ 0) width height
        :: strokes ++ passed
    /\ strokes = connections (dynamicThreshold time)
                   (points (exec (prologue width height time) w))
    /\ Forall (fun e => isStroke e = true) strokes
    /\ Forall ofThePass passed.
Proof.
  destruct (prologue_world time w) as [added [strokes [Hpts [_ [_ [_ [Htr Hstrokes]]]]]]].
  rewrite render_prologue.
  set (w1 := exec (prologue width height time) w) in *.
  pose proof (@preserves_forEach_from T (Point T) (grows ofThePass (trace w1))
                (callback midiOutput width height time) 0
                (fun q k _ => @callback_ofThePass midiOutput time q k (trace w1))
                (length (points w1)) 0 (le_n 0) w1 (grows_refl _ w1))
    as [passed [Hpassed Hall]].
  exists strokes, passed.
  split; [|split; [|split]].
  - rewrite forEach_exec.
    change (trace (exec (forEach_from (callback midiOutput width height time)
                           (length (points w1)) 0) w1)
            = trace w1 ++ passed) in Hpassed.
    rewrite Hpassed, Htr, <- app_assoc. reflexivity.
  - rewrite Hstrokes, Hpts. reflexivity.
  - rewrite Hstrokes. apply connections_strokes.
  - exact Hall.
Qed.

(** *** Without a MIDI output *)

Lemma callback_silent (time : T) (q : Point T) (k : nat) tr0 :
  preserves (grows painting tr0) (callback None width height time q k).
Proof.
  intros w [ev [Hev Hall]].
  change (grows painting tr0 (exec (callback None width height time q k) w)).
  rewrite midi_callback_exec. eexists. cbn [trace]. split.
  - rewrite Hev, <- app_assoc. reflexivity.
  - apply Forall_app. split; [exact Hall|].
    constructor; [reflexivity|]. apply Forall_app. split.
    + unfold noteOn. rewrite andb_false_r. constructor.
    + unfold noteOff, expired. rewrite andb_false_r. constructor.
Qed.

Lemma render_head_free (midiOutput : option MIDIOutput) (time : T)
    (w : World T (Point T)) :
  midiOutput = None ->
  exists ev,
    trace (exec (render midiOutput width height time) w) = trace w ++ ev
    /\ Forall painting ev.
Proof.
  intros ->. rewrite render_prologue.
  apply (@preserves_forEach_from T (Point T) (grows painting (trace w))
           (callback None width height time) 0
           (fun q k _ => @callback_silent time q k (trace w))
           (length (points (exec (prologue width height time) w))) 0 (le_n 0)).
  apply (@prologue_painting _ _ width height time (trace w) w). apply grows_refl.
Qed.

(** With [midiOutput] unset a frame sends nothing and removes nothing:
    every point, old or added by the prologue, is moved and aged once, and
    the array that was [n] long ends at least [max n MIN_ACTIVE_POINTS]
    long. *)
Theorem frame_without_output_ages_all_and_is_silent
    (time : T) (w : World T (Point T)) :
  exists added ev,
    points (exec (render None width height time) w)
    = map (fun p => aged width height p time) (points w ++ added)
    /\ Forall (fun p => age p = ofZ 0) added
    /\ 150 <= length (points w ++ added)
    /\ trace (exec (render None width height time) w) = trace w ++ ev
    /\ Forall (fun e => lifecycle e = false) ev.
Proof.
  destruct (prologue_world time w) as [added [strokes [Hpts [Hmade [_ [Hfloor _]]]]]].
  destruct (@render_head_free None time w eq_refl) as [ev [Hev Hquiet]].
  exists added, ev.
  split; [|split; [exact (made_fresh Hmade) | split; [exact Hfloor | split; [exact Hev | exact Hquiet]]]].
  rewrite render_prologue, MidiPass.forEach_sweep, Hpts.
  apply MidiPass.sweep_without_expiry.
  apply Forall_forall. intros p _. unfold expired. apply andb_false_r.
Qed.

(** A frame never leaves fewer than 75 points: the prologue hands at least
    [MIN_ACTIVE_POINTS] = 150 to the pass, and the pass removes at most
    every other one. *)
Theorem frame_leaves_at_least_75_points
    (midiOutput : option MIDIOutput) (time : T) (w : World T (Point T)) :
  75 <= length (points (exec (render midiOutput width height time) w)).
Proof.
  destruct (prologue_world time w) as [added [strokes [Hpts [_ [_ [Hfloor _]]]]]].
  rewrite render_prologue.
  rewrite MidiPass.forEach_sweep.
  pose proof (@MidiPass.sweep_keeps_half_bounded _ _ midiOutput width height time
                (length (points (exec (prologue width height time) w)))
                (points (exec (prologue width height time) w)) (le_n _)) as Hhalf.
  rewrite Hpts in Hhalf. rewrite Hpts. unfold MIN_ACTIVE_POINTS in Hfloor. lia.
Qed.

(** *** With a MIDI output: no expired point is left *)

Lemma callback_rng (midiOutput : option MIDIOutput) (time : T)
    (q : Point T) (k : nat) (r : nat -> T) :
  preserves (fun w => rng w = r) (callback midiOutput width height time q k).
Proof.
  intros w Hw.
  change (rng (exec (callback midiOutput width height time q k) w) = r).
  rewrite midi_callback_exec. exact Hw.
Qed.

Lemma render_rng (midiOutput : option MIDIOutput) (time : T)
    (w : World T (Point T)) :
  rng (exec (render midiOutput width height time) w) = rng w.
Proof.
  rewrite render_prologue.
  destruct (prologue_world time w) as [added [strokes [_ [_ [Hrng _]]]]].
  apply (@preserves_forEach_from T (Point T) (fun w' => rng w' = rng w)
           (callback midiOutput width height time) 0
           (fun q k _ => @callback_rng midiOutput time q k (rng w))
           (length (points (exec (prologue width height time) w))) 0 (le_n 0)).
  exact Hrng.
Qed.

Lemma made_young (r : nat -> T) (l : list (Point T)) :
  (forall c, MidiPass.young (pointAt r c)) ->
  Forall (made r) l -> Forall (MidiPass.young (T := T)) l.
Proof. intros Hr. apply Forall_impl. intros p [c ->]. apply Hr. Qed.

Lemma render_young_midi (output : MIDIOutput) (time : T) (w : World T (Point T)) :
  (forall c, MidiPass.young (pointAt (rng w) c)) ->
  Forall (MidiPass.young (T := T)) (points w) ->
  Forall (MidiPass.young (T := T))
    (points (exec (render (Some output) width height time) w)).
Proof.
  intros Hr Hw. rewrite render_prologue.
  destruct (prologue_world time w) as [added [strokes [Hpts [Hmade _]]]].
  apply MidiPass.forEach_young; [discriminate|].
  rewrite Hpts. apply Forall_app. split; [exact Hw | exact (made_young Hr Hmade)].
Qed.

Lemma frames_young_midi (output : MIDIOutput) (times : list T)
    (w : World T (Point T)) :
  (forall c, MidiPass.young (pointAt (rng w) c)) ->
  Forall (MidiPass.young (T := T)) (points w) ->
  Forall (MidiPass.young (T := T))
    (points (exec (frames (Some output) width height times) w)).
Proof.
  revert w. induction times as [|t times IH]; intros w Hr Hw; [exact Hw|].
  cbn [frames]. rewrite exec_bind. apply IH.
  - change (snd (render (Some output) width height t w))
      with (exec (render (Some output) width height t) w).
    rewrite render_rng. exact Hr.
  - apply render_young_midi; assumption.
Qed.

Lemma sketch_made (w : World T (Point T)) :
  Forall (made (rng w)) (points (exec (sketch width height) w))
  /\ rng (exec (sketch width height) w) = rng w.
Proof.
  unfold sketch. rewrite exec_bind.
  destruct (initialize_world INITIAL_POINTS (snd (setPoints [] w)))
    as [added [Hrun [Hmade _]]].
  rewrite Hrun. cbn [setPoints snd points rng app]. split; [exact Hmade | reflexivity].
Qed.

End Generic.
End MidiSetup.

(* ------------------------------------------------------------------ *)
(** ** The fixed-lifespan sketch: what a pass does to the array *)

Module FixedPass.
Import Sketch03 FixedFrame.

Section Generic.

Context {T : Type} `{JSNumber T}.
Local Open Scope js_scope.

Variables width height time : T.

(** A point the callback will remove: one more frame takes it to
    [POINT_LIFESPAN]. *)
Definition due (p : Point T) : bool := age p + ofZ 1 / fps >=? POINT_LIFESPAN.

(** A point below [POINT_LIFESPAN]. *)
Definition young (p : Point T) : Prop := (age p >=? POINT_LIFESPAN) = false.

(** [passes before after]: how one pass of [points.forEach] turns the array
    [before] into [after].  A point that is not due is kept, one frame older
    (where it moves depends on the generator); a due point is dropped, and
    the point behind it, which takes its index, goes through unvisited. *)
Inductive passes : list (Point T) -> list (Point T) -> Prop :=
| passes_nil : passes [] []
| passes_last (p : Point T) :
    due p = true -> passes [p] []
| passes_skip (p q : Point T) (rest after : list (Point T)) :
    due p = true -> passes rest after -> passes (p :: q :: rest) (q :: after)
| passes_keep (p p' : Point T) (rest after : list (Point T)) :
    due p = false -> age p' = age p + ofZ 1 / fps ->
    passes rest after -> passes (p :: rest) (p' :: after).

Lemma forEach_from_passes (len : nat) :
  forall (rest done : list (Point T)) (w : World T (Point T)),
    points w = done ++ rest ->
    length rest <= len ->
    exists after,
      points (exec (forEach_from (callback width height time) len (length done)) w)
      = done ++ after
      /\ passes rest after.
Proof.
  induction len as [|len IH]; intros rest done w Hw Hlen.
  - destruct rest; [|simpl in Hlen; lia].
    exists []. split; [exact Hw | constructor].
  - rewrite forEach_from_step, Hw. destruct rest as [|p rest].
    + rewrite app_nil_r, (proj2 (nth_error_None done (length done)) (le_n _)).
      rewrite forEach_from_past_end; [|rewrite Hw, app_nil_r; lia].
      exists []. split; [exact Hw | constructor].
    + rewrite nth_error_middle, fixed_callback_exec.
      cbn [age setAge]. rewrite Hw, store_middle.
      set (p2 := setAge (fst (update p width height time w))
                        (age p + ofZ 1 / fps)).
      destruct (age p + ofZ 1 / fps >=? POINT_LIFESPAN) eqn:Hdue.
      * rewrite splice1_middle.
        set (w1 := {| points := done ++ rest; rng := rng w;
                      cursor := S (S (cursor w)); trace := _ |}).
        destruct rest as [|q rest'].
        -- rewrite forEach_from_past_end;
             [|unfold w1; cbn [points]; rewrite app_nil_r; lia].
           exists []. split; [reflexivity | constructor; exact Hdue].
        -- replace (S (length done)) with (length (done ++ [q]))
             by (rewrite length_app; cbn [length]; lia).
           destruct (IH rest' (done ++ [q]) w1) as [after [Hpts Hpass]].
           ++ unfold w1. cbn [points]. rewrite <- app_assoc. reflexivity.
           ++ cbn [length] in Hlen. lia.
           ++ exists (q :: after). rewrite Hpts, <- app_assoc.
              split; [reflexivity | constructor; assumption].
      * set (w1 := {| points := done ++ p2 :: rest; rng := rng w;
                      cursor := S (S (cursor w)); trace := _ |}).
        replace (S (length done)) with (length (done ++ [p2]))
          by (rewrite length_app; cbn [length]; lia).
        destruct (IH rest (done ++ [p2]) w1) as [after [Hpts Hpass]].
        -- unfold w1. cbn [points]. rewrite <- app_assoc. reflexivity.
        -- cbn [length] in Hlen. lia.
        -- exists (p2 :: after). rewrite Hpts, <- app_assoc.
           split; [reflexivity|].
           apply passes_keep; [exact Hdue | reflexivity | exact Hpass].
Qed.

Lemma forEach_passes (w : World T (Point T)) :
  passes (points w) (points (exec (forEach (callback width height time)) w)).
Proof.
  rewrite forEach_exec.
  destruct (@forEach_from_passes (length (points w)) (points w) [] w eq_refl (le_n _))
    as [after [Hpts Hpass]].
  cbn [length app] in Hpts. rewrite Hpts. exact Hpass.
Qed.

(** *** What follows from [passes] *)

Lemma passes_all_due (before after : list (Point T)) :
  passes before after ->
  Forall (fun p => due p = true) before -> after = odds before.
Proof.
  induction 1 as [|p Hp|p q rest after Hp Hpass IH|p p' rest after Hp Ha Hpass IH];
    intros Hall.
  - reflexivity.
  - reflexivity.
  - inversion Hall as [|? ? _ Hall']; subst.
    inversion Hall' as [|? ? _ Hrest]; subst.
    cbn [odds]. rewrite (IH Hrest). reflexivity.
  - inversion Hall as [|? ? Hp' _]; subst. rewrite Hp in Hp'. discriminate.
Qed.

Lemma passes_none_due (before after : list (Point T)) :
  passes before after ->
  Forall (fun p => due p = false) before ->
  map age after = map (fun p => age p + ofZ 1 / fps) before.
Proof.
  induction 1 as [|p Hp|p q rest after Hp Hpass IH|p p' rest after Hp Ha Hpass IH];
    intros Hall.
  - reflexivity.
  - inversion Hall as [|? ? Hp' _]; subst. rewrite Hp in Hp'. discriminate.
  - inversion Hall as [|? ? Hp' _]; subst. rewrite Hp in Hp'. discriminate.
  - inversion Hall as [|? ? _ Hrest]; subst. cbn [map].
    rewrite Ha, (IH Hrest). reflexivity.
Qed.

Lemma passes_young (before after : list (Point T)) :
  passes before after -> Forall young before -> Forall young after.
Proof.
  induction 1 as [|p Hp|p q rest after Hp Hpass IH|p p' rest after Hp Ha Hpass IH];
    intros Hall.
  - constructor.
  - constructor.
  - inversion Hall as [|? ? _ Hall']; subst.
    inversion Hall' as [|? ? Hq Hrest]; subst.
    constructor; [exact Hq | exact (IH Hrest)].
  - inversion Hall as [|? ? _ Hrest]; subst.
    constructor; [|exact (IH Hrest)].
    unfold young. rewrite Ha. exact Hp.
Qed.

Lemma passes_half (before after : list (Point T)) :
  passes before after -> length before <= 2 * length after + 1.
Proof.
  induction 1; cbn [length] in *; lia.
Qed.

(** The array that reaches the pass: the old points in place, then the
    fresh ones of the top-up and of the spawn, [MIN_ACTIVE_POINTS] at
    least. *)
Lemma render_pass_start (w : World T (Point T)) :
  exists w1 added,
    exec (render width height time) w
    = exec (forEach (callback width height time)) w1
    /\ points w1 = points w ++ added
    /\ Forall fresh added
    /\ MIN_ACTIVE_POINTS <= length (points w ++ added).
Proof.
  unfold render. rewrite !exec_bind.
  set (w0 := snd (emit _ w)).
  set (w1 := snd (topUp MIN_ACTIVE_POINTS width height w0)).
  set (w2 := snd (spawn width height w1)).
  set (w3 := snd (emitAll _ (snd (getPoints w2)))).
  destruct (@topUp_points _ _ width height MIN_ACTIVE_POINTS w0)
    as [added1 [H1 [Hf1 Hl1]]]; [lia|].
  change (points w1 = points w0 ++ added1) in H1.
  destruct (@spawn_points _ _ width height w1) as [added2 [H2 [Hf2 Hl2]]].
  change (points w2 = points w1 ++ added2) in H2.
  exists w3, (added1 ++ added2).
  split; [reflexivity|].
  split.
  { change (points w3) with (points w2). rewrite H2, H1, <- app_assoc. reflexivity. }
  split; [apply Forall_app; split; assumption|].
  change (points w0) with (points w) in Hl1.
  rewrite !length_app, Hl1. lia.
Qed.

Lemma fresh_young (l : list (Point T)) :
  (ofZ 0 >=? POINT_LIFESPAN) = false -> Forall fresh l -> Forall young l.
Proof.
  intros Hzero. apply Forall_impl. intros p Hp. unfold young. rewrite Hp. exact Hzero.
Qed.

Lemma render_young (w : World T (Point T)) :
  (ofZ 0 >=? POINT_LIFESPAN) = false ->
  Forall young (points w) ->
  Forall young (points (exec (render width height time) w)).
Proof.
  intros Hzero Hw.
  destruct (render_pass_start w) as [w1 [added [Hrun [Hpts [Hfresh _]]]]].
  rewrite Hrun. apply (passes_young (forEach_passes w1)).
  rewrite Hpts. apply Forall_app. split; [exact Hw | exact (fresh_young Hzero Hfresh)].
Qed.

Lemma fixed_initialize_points (n : nat) (w : World T (Point T)) :
  exists added,
    points (exec (initialize n width height) w) = points w ++ added
    /\ Forall fresh added
    /\ length added = n.
Proof.
  revert w. induction n as [|n IH]; intros w.
  - exists []. rewrite app_nil_r. split; [reflexivity | split; [constructor | reflexivity]].
  - change (exec (initialize (S n) width height) w)
      with (exec (initialize n width height) (exec (addPoint width height) w)).
    destruct (@addPoint_points _ _ width height w) as [p [Hp Hpts]].
    destruct (IH (exec (addPoint width height) w)) as [added [Hadd [Hfresh Hlen]]].
    exists (p :: added). rewrite Hadd, Hpts, <- app_assoc. cbn [app].
    split; [reflexivity | split; [constructor; assumption|]].
    cbn [length]. rewrite Hlen. reflexivity.
Qed.

End Generic.

Section Results.

Context {T : Type} `{JSNumber T}.
Local Open Scope js_scope.

(** A pass over an array in which every point is due removes the points at
    the even indices 0, 2, 4, ... only: each removal moves the next point
    into the index just visited, so the points at the odd indices are never
    visited and stay in the array exactly as they were. *)
Theorem pass_over_due_points_leaves_the_odd_ones
    (width height time : T) (w : World T (Point T)) :
  Forall (fun p => (age p + ofZ 1 / fps >=? POINT_LIFESPAN) = true) (points w) ->
  points (exec (forEach (callback width height time)) w) = odds (points w).
Proof.
  intros Hall. apply (passes_all_due (forEach_passes width height time w)).
  exact Hall.
Qed.

(** A pass over an array in which no point is due removes nothing: the
    array keeps its length, and each point, in order, is one frame older. *)
Theorem pass_without_due_points_ages_every_point
    (width height time : T) (w : World T (Point T)) :
  Forall (fun p => (age p + ofZ 1 / fps >=? POINT_LIFESPAN) = false) (points w) ->
  map age (points (exec (forEach (callback width height time)) w))
  = map (fun p => age p + ofZ 1 / fps) (points w).
Proof.
  intros Hall. apply (passes_none_due (forEach_passes width height time w)).
  exact Hall.
Qed.

(** One pass removes at most every other point: of [n] points at least
    [(n - 1) / 2] are left. *)
Theorem fixed_pass_keeps_half (width height time : T) (w : World T (Point T)) :
  length (points w)
  <= 2 * length (points (exec (forEach (callback width height time)) w)) + 1.
Proof. apply (passes_half (forEach_passes width height time w)). Qed.

(** The pass leaves no point at or above [POINT_LIFESPAN] behind, provided
    none was there when it started. *)
Theorem fixed_pass_leaves_no_expired_point
    (width height time : T) (w : World T (Point T)) :
  Forall (young (T := T)) (points w) ->
  Forall (young (T := T)) (points (exec (forEach (callback width height time)) w)).
Proof.
  intros Hall. apply (passes_young (forEach_passes width height time w)).
  exact Hall.
Qed.

(** The floor.  The top-up loop leaves the points that were there in
    place, appends [MIN_ACTIVE_POINTS - n] fresh ones when there were [n]
    (none when [n] is large enough), and so hands on at least
    [MIN_ACTIVE_POINTS] points. *)
Theorem fixed_topUp_reaches_the_floor (width height : T) (w : World T (Point T)) :
  exists added,
    points (exec (topUp MIN_ACTIVE_POINTS width height) w) = points w ++ added
    /\ Forall (fun p => age p = ofZ 0) added
    /\ length added = (150 - length (points w))%nat
    /\ 150 <= length (points (exec (topUp MIN_ACTIVE_POINTS width height) w)).
Proof.
  destruct (@topUp_points _ _ width height MIN_ACTIVE_POINTS w)
    as [added [Hadd [Hfresh Hlen]]]; [lia|].
  exists added. split; [exact Hadd | split; [exact Hfresh | split; [exact Hlen|]]].
  rewrite Hadd, length_app, Hlen. unfold MIN_ACTIVE_POINTS. lia.
Qed.

Lemma fixed_sketch_points
    (width height : T) (w : World T (Point T)) :
  length (points (exec (sketch width height) w)) = 200
  /\ Forall (fun p => age p = ofZ 0) (points (exec (sketch width height) w)).
Proof.
  unfold sketch. rewrite exec_bind.
  destruct (@fixed_initialize_points _ _ width height INITIAL_POINTS
              (snd (setPoints [] w))) as [added [Hadd [Hfresh Hlen]]].
  cbn [fst]. rewrite Hadd. cbn [setPoints snd points app].
  split; [exact Hlen | exact Hfresh].
Qed.

(** [sketch] starts from an empty array whatever was there, and sets up
    [INITIAL_POINTS] = 200 points of age 0. *)
Theorem fixed_sketch_sets_up_200_fresh_points
    (width height : T) (w : World T (Point T)) :
  length (points (exec (sketch width height) w)) = 200
  /\ Forall (fun p => age p = ofZ 0) (points (exec (sketch width height) w)).
Proof. apply fixed_sketch_points. Qed.

(** A frame never leaves fewer than 75 points: at least
    [MIN_ACTIVE_POINTS] = 150 reach the pass, and the pass removes at most
    every other one. *)
Theorem fixed_frame_leaves_at_least_75_points
    (width height time : T) (w : World T (Point T)) :
  75 <= length (points (exec (render width height time) w)).
Proof.
  destruct (render_pass_start width height time w)
    as [w1 [added [Hrun [Hpts [_ Hfloor]]]]].
  rewrite Hrun.
  pose proof (passes_half (forEach_passes width height time w1)) as Hhalf.
  rewrite Hpts in Hhalf. unfold MIN_ACTIVE_POINTS in Hfloor. lia.
Qed.

Lemma frames_young (width height : T) (times : list T) (w : World T (Point T)) :
  (ofZ 0 >=? POINT_LIFESPAN) = false ->
  Forall (young (T := T)) (points w) ->
  Forall (young (T := T)) (points (exec (frames width height times) w)).
Proof.
  intros Hzero. revert w. induction times as [|t times IH]; intros w Hw; [exact Hw|].
  cbn [frames]. rewrite exec_bind. apply IH. apply render_young; assumption.
Qed.

End Results.
End FixedPass.

(** The invariant of the fixed sketch, on doubles. *)
Module FixedRuns.
Import Sketch03 FixedPass.

Section Engine.

Variables fsin fcos : Binary64.float -> Binary64.float.

#[local] Instance engine : JSNumber Binary64.float := binary64 fsin fcos.

Local Open Scope js_scope.

(** In every state the sketch reaches, set-up first and then any number of
    frames, whatever the generator and the times, every point of the array
    is below [POINT_LIFESPAN]: the frame that takes a visited point to its
    lifespan removes it, and a skipped point does not age. *)
Theorem no_expired_point_is_ever_left
    (width height : Binary64.float) (times : list Binary64.float)
    (w : World Binary64.float (Point Binary64.float)) :
  Forall (fun p => (age p >=? POINT_LIFESPAN) = false)
    (points (exec (frames width height times) (exec (sketch width height) w))).
Proof.
  apply (@frames_young _ _ width height times); [vm_compute; reflexivity|].
  destruct (fixed_sketch_points width height w) as [_ Hfresh].
  revert Hfresh. apply Forall_impl. intros p Hp. unfold young. rewrite Hp.
  vm_compute. reflexivity.
Qed.

End Engine.
End FixedRuns.

(* ------------------------------------------------------------------ *)
(** ** What every point of a run satisfies *)

(** A property of points that each new point has and that a visit keeps
    holds of every point of every state a run reaches. *)
Module MidiInvariant.
Import Sketch03Midi MidiFrame.

Section Generic.

Context {T : Type} `{JSNumber T}.
Local Open Scope js_scope.

Variable midiOutput : option MIDIOutput.
Variables width height : T.
Variable Q : Point T -> Prop.
Variable r : nat -> T.

Hypothesis Qnew : forall c, Q (MidiSetup.pointAt width height r c).
Hypothesis Qaged : forall p time, Q p -> Q (aged width height p time).

Lemma midi_made_keeps (l : list (Point T)) :
  Forall (MidiSetup.made width height r) l -> Forall Q l.
Proof. apply Forall_impl. intros p [c ->]. apply Qnew. Qed.

Lemma midi_sweep_keeps_bounded (time : T) (n : nat) :
  forall l : list (Point T),
    length l <= n -> Forall Q l ->
    Forall Q (MidiPass.sweep midiOutput width height time l).
Proof.
  induction n as [|n IH]; intros l Hn Hl.
  - destruct l; [constructor | simpl in Hn; lia].
  - destruct l as [|p rest]; [constructor|]. cbn [MidiPass.sweep].
    inversion Hl as [|p' rest' Hp Hrest]; subst.
    destruct (expired midiOutput (aged width height p time)).
    + destruct rest as [|q rest']; [constructor|].
      inversion Hrest as [|q' rest'' Hq Hrest']; subst.
      constructor; [exact Hq|]. apply IH; [cbn [length] in Hn; lia | exact Hrest'].
    + constructor; [apply Qaged; exact Hp|].
      apply IH; [cbn [length] in Hn; lia | exact Hrest].
Qed.

Lemma midi_render_keeps (time : T) (w : World T (Point T)) :
  rng w = r -> Forall Q (points w) ->
  Forall Q (points (exec (render midiOutput width height time) w)).
Proof.
  intros Hr Hw. rewrite render_prologue, MidiPass.forEach_sweep.
  destruct (MidiSetup.prologue_world width height time w)
    as [added [strokes [Hpts [Hmade _]]]].
  apply (@midi_sweep_keeps_bounded time (length (points (exec (prologue width height time) w))));
    [apply le_n|].
  rewrite Hpts. apply Forall_app. split; [exact Hw|].
  apply midi_made_keeps. rewrite <- Hr. exact Hmade.
Qed.

Lemma midi_frames_keeps (times : list T) (w : World T (Point T)) :
  rng w = r -> Forall Q (points w) ->
  Forall Q (points (exec (frames midiOutput width height times) w)).
Proof.
  revert w. induction times as [|t times IH]; intros w Hr Hw; [exact Hw|].
  cbn [frames]. rewrite exec_bind. apply IH.
  - change (snd (render midiOutput width height t w))
      with (exec (render midiOutput width height t) w).
    rewrite MidiSetup.render_rng. exact Hr.
  - apply midi_render_keeps; assumption.
Qed.

Lemma midi_run_keeps (times : list T) (w : World T (Point T)) :
  rng w = r ->
  Forall Q (points (exec (frames midiOutput width height times)
                      (exec (sketch width height) w))).
Proof.
  intros Hr. destruct (MidiSetup.sketch_made width height w) as [Hmade Hrng].
  apply midi_frames_keeps.
  - rewrite Hrng. exact Hr.
  - apply midi_made_keeps. rewrite <- Hr. exact Hmade.
Qed.

End Generic.
End MidiInvariant.

Module FixedInvariant.
Import Sketch03 FixedFrame.

Section Generic.

Context {T : Type} `{JSNumber T}.
Local Open Scope js_scope.

Variables width height : T.

(** The point [new Point(x, y)] makes, with [x] and [y] drawn as the
    sketch draws them, from the values [r c], ..., [r (3 + c)] of the
    generator. *)
Definition pointAt (r : nat -> T) (c : nat) : Point T :=
  {| pos := Vector.new (r c * (width - ofZ 0) + ofZ 0)
                       (r (1 + c)%nat * (height - ofZ 0) + ofZ 0);
     vel := Vector.new
              (r (2 + c)%nat * (decimal 2 1 - - decimal 2 1) + - decimal 2 1)
              (r (3 + c)%nat * (decimal 2 1 - - decimal 2 1) + - decimal 2 1);
     acc := Vector.new (ofZ 0) (ofZ 0);
     radius := ofZ 3;
     age := ofZ 0 |}.

Lemma fixed_addPoint_world (w : World T (Point T)) :
  exec (addPoint width height) w =
  {| points := points w ++ [pointAt (rng w) (cursor w)]; rng := rng w;
     cursor := 4 + cursor w; trace := trace w |}.
Proof. reflexivity. Qed.

(** [update], in closed form: the velocity [update] adds to the position
    is the old one, nudged by the margins, the field and two values of the
    generator; the velocity it leaves is that one, clamped. *)
Definition nudged (p : Point T) (time : T) (w : World T (Point T)) : Vector.t T :=
  let p0 := applyBoundaries p width height in
  Vector.new
    (Vector.x (vel p0)
     + Math_sin (time * decimal 2 1 + Vector.y (pos p) * decimal 5 1) * decimal 2 2
     + (rng w (cursor w) * (decimal 5 3 - - decimal 5 3) + - decimal 5 3))
    (Vector.y (vel p0)
     + Math_cos (time * decimal 2 1 + Vector.x (pos p) * decimal 5 1) * decimal 2 2
     + (rng w (S (cursor w)) * (decimal 5 3 - - decimal 5 3) + - decimal 5 3)).

Lemma update_result (p : Point T) (time : T) (w : World T (Point T)) :
  fst (update p width height time w) =
  let v := nudged p time w in
  {| pos := wrap (Vector.add (pos p) v) width height;
     vel := Vector.new (math_clamp (Vector.x v) (- decimal 4 1) (decimal 4 1))
                       (math_clamp (Vector.y v) (- decimal 4 1) (decimal 4 1));
     acc := acc p; radius := radius p; age := age p |}.
Proof. reflexivity. Qed.

Variable Q : Point T -> Prop.
Variable r : nat -> T.

Hypothesis Qnew : forall c, Q (pointAt r c).
Hypothesis Qupdate :
  forall (p : Point T) (time a : T) (w : World T (Point T)),
    rng w = r -> Q (setAge (fst (update p width height time w)) a).

Definition keeps (w : World T (Point T)) : Prop :=
  rng w = r /\ Forall Q (points w).

Lemma addPoint_keeps : preserves keeps (addPoint width height).
Proof.
  intros w [Hr Hw].
  change (keeps (exec (addPoint width height) w)).
  rewrite fixed_addPoint_world. split; [exact Hr|]. cbn [points].
  apply Forall_app. split; [exact Hw|].
  constructor; [rewrite Hr; apply Qnew | constructor].
Qed.

Lemma topUp_keeps (fuel : nat) : preserves keeps (topUp fuel width height).
Proof.
  induction fuel as [|fuel IH]; intros w Hw; [exact Hw|].
  change (keeps (exec (topUp (S fuel) width height) w)).
  rewrite topUp_step.
  destruct (Nat.ltb (length (points w)) MIN_ACTIVE_POINTS); [|exact Hw].
  apply IH, addPoint_keeps, Hw.
Qed.

Lemma spawn_keeps : preserves keeps (spawn width height).
Proof.
  intros w [Hr Hw]. unfold keeps, spawn, bind, random_chance, random_value, ret.
  simpl.
  destruct (rng w (cursor w) <? THOUGHTS_PER_SECOND / ofZ 60); simpl.
  - split; [exact Hr|]. apply Forall_app. split; [exact Hw|].
    constructor; [|constructor].
    rewrite Hr. exact (Qnew (S (cursor w))).
  - split; assumption.
Qed.

Lemma initialize_keeps (n : nat) : preserves keeps (initialize n width height).
Proof.
  induction n as [|n IH]; intros w Hw; [exact Hw|].
  change (keeps (exec (initialize n width height) (exec (addPoint width height) w))).
  apply IH, addPoint_keeps, Hw.
Qed.

Lemma callback_keeps (time : T) (p : Point T) (k : nat) :
  preserves keeps (callback width height time p k).
Proof.
  intros w [Hr Hw].
  change (keeps (exec (callback width height time p k) w)).
  rewrite fixed_callback_exec. split; [exact Hr|]. cbn [points].
  assert (Hstore : Forall Q (store k (setAge (fst (update p width height time w))
                                        (age p + ofZ 1 / fps)) (points w))).
  { apply Forall_store; [apply Qupdate; exact Hr | exact Hw]. }
  match goal with |- context [if ?b then _ else _] => destruct b end;
    [apply Forall_splice1|]; exact Hstore.
Qed.

Lemma render_keeps (time : T) : preserves keeps (render width height time).
Proof.
  unfold render.
  apply preserves_bind; [intros w Hw; exact Hw|]. intros _.
  apply preserves_bind; [apply topUp_keeps|]. intros _.
  apply preserves_bind; [apply spawn_keeps|]. intros _.
  apply preserves_bind; [apply preserves_getPoints|]. intros l.
  apply preserves_bind; [intros w Hw; exact Hw|]. intros _.
  unfold forEach.
  apply preserves_bind; [apply preserves_getPoints|]. intros l'.
  apply (@preserves_forEach_from T (Point T) keeps (callback width height time) 0);
    [|apply le_n].
  intros p k _. apply callback_keeps.
Qed.

Lemma frames_keeps (times : list T) : preserves keeps (frames width height times).
Proof.
  induction times as [|t times IH]; [intros w Hw; exact Hw|].
  cbn [frames]. apply preserves_bind; [apply render_keeps | intros _; exact IH].
Qed.

Lemma run_keeps (times : list T) (w : World T (Point T)) :
  rng w = r ->
  Forall Q (points (exec (frames width height times)
                      (exec (sketch width height) w))).
Proof.
  intros Hr. apply frames_keeps.
  unfold sketch. rewrite exec_bind. apply initialize_keeps.
  split; [exact Hr | constructor].
Qed.

End Generic.
End FixedInvariant.

(* ------------------------------------------------------------------ *)
(** ** More on real numbers: vectors, new points, motion, fading, ageing *)

Ltac reals :=
  cbv [decimal ofZ neg add sub mul div lt le strictEq Math_sqrt Math_sin Math_cos ideal
       Z.of_nat Pos.of_succ_nat Pos.succ Z.pow Z.pow_pos Pos.iter Z.mul
       Pos.mul Pos.add] in *.

Ltac plain a :=
  lazymatch a with
  | context [Ideal.ltb _ _] => fail
  | context [Ideal.leb _ _] => fail
  | _ => idtac
  end.

(* Case analysis on the comparisons of the goal, innermost first. *)
Ltac cases :=
  repeat match goal with
         | |- context [Ideal.ltb ?a ?b] =>
             plain a; plain b; destruct (IdealFacts.ltb_spec a b)
         | |- context [Ideal.leb ?a ?b] =>
             plain a; plain b; destruct (IdealFacts.leb_spec a b)
         end.

(** *** [class Vector] *)

Module IdealVector.

#[local] Existing Instance ideal.

Local Open Scope R_scope.

Lemma sum_of_squares_nonneg (a b : R) : 0 <= a * a + b * b.
Proof. nra. Qed.

Lemma vector_length_formula (v : Vector.t R) :
  Vector.length v = sqrt (Vector.x v * Vector.x v + Vector.y v * Vector.y v).
Proof. reflexivity. Qed.




End IdealVector.

(** *** The MIDI sketch on real numbers *)

Module IdealMidi.
Import Sketch03Midi MidiFrame.

#[local] Existing Instance ideal.

Local Open Scope R_scope.

Section Canvas.

Variables width height : R.

(** What [new Point(x, y)] promises when the generator keeps its promise
    of values in [0, 1): a position on the canvas, a velocity of at most 0.2
    per axis, radius 3, age 0, and a lifespan from [POINT_LIFESPAN_MIN] up
    to (not including) [POINT_LIFESPAN_MAX]. *)
Definition inRange (p : Point R) : Prop :=
  (0 <= Vector.x (pos p) < width /\ 0 <= Vector.y (pos p) < height)
  /\ (- (2 / 10) <= Vector.x (vel p) < 2 / 10
      /\ - (2 / 10) <= Vector.y (vel p) < 2 / 10)
  /\ radius p = 3 /\ age p = 0
  /\ 60 <= lifespan p < 180.

Lemma pointAt_inRange (r : nat -> R) (c : nat) :
  (forall n, 0 <= r n < 1) -> 0 < width -> 0 < height ->
  inRange (MidiSetup.pointAt width height r c).
Proof.
  intros Hr Hw Hh. unfold inRange, MidiSetup.pointAt.
  cbn [pos vel radius age lifespan Vector.x Vector.y].
  unfold POINT_LIFESPAN_MAX, POINT_LIFESPAN_MIN. reals.
  pose proof (Hr c) as H0. pose proof (Hr (1 + c)%nat) as H1.
  pose proof (Hr (2 + c)%nat) as H2. pose proof (Hr (3 + c)%nat) as H3.
  pose proof (Hr (4 + c)%nat) as H4.
  repeat split; try reflexivity; nra.
Qed.

Lemma made_inRange (r : nat -> R) (l : list (Point R)) :
  (forall n, 0 <= r n < 1) -> 0 < width -> 0 < height ->
  Forall (MidiSetup.made width height r) l -> Forall inRange l.
Proof.
  intros Hr Hw Hh. apply Forall_impl. intros p [c ->].
  apply pointAt_inRange; assumption.
Qed.




(** A point in play: on the canvas, no faster than any new point,
    with the radius and a lifespan a new point can have. *)
Definition inPlay (p : Point R) : Prop :=
  (0 <= Vector.x (pos p) <= width /\ 0 <= Vector.y (pos p) <= height)
  /\ (- (2 / 10) <= Vector.x (vel p) < 2 / 10
      /\ - (2 / 10) <= Vector.y (vel p) < 2 / 10)
  /\ radius p = 3 /\ 0 <= age p
  /\ 60 <= lifespan p < 180.


End Canvas.

(** *** Ageing, exactly *)

Lemma ageAfter_exact (n : nat) (a : R) : ageAfter n a = a + INR n / 60.
Proof.
  induction n as [|n IH].
  - change (a = a + 0 / 60). lra.
  - change (ageAfter (S n) a) with (add (ageAfter n a) (div (ofZ 1) fps)).
    rewrite IH, S_INR. unfold fps. reals. lra.
Qed.

Lemma outlives_exact (n : nat) (a l : R) :
  outlives n a l = true <-> (n = 0%nat \/ a + INR n / 60 < l).
Proof.
  revert a. induction n as [|n IH]; intros a.
  - cbn [outlives]. split; [left; reflexivity | reflexivity].
  - cbn [outlives]. rewrite andb_true_iff, negb_true_iff, IH, S_INR.
    unfold fps. reals.
    pose proof (pos_INR n) as Hn.
    destruct (IdealFacts.leb_spec l (a + 1 / 60)) as [Hle|Hlt].
    + split; [intros [Hc _]; discriminate | intros [Hc|Hc]; [discriminate | lra]].
    + split.
      * intros [_ [->|Hc]]; right; [cbn [INR] | ]; lra.
      * intros [Hc|Hc]; [discriminate|]. split; [reflexivity|].
        destruct n as [|n']; [left; reflexivity | right; lra].
Qed.


End IdealMidi.

(** *** The fixed-lifespan sketch on real numbers *)

Module IdealFixed.
Import Sketch03 FixedFrame.

#[local] Existing Instance ideal.

Local Open Scope R_scope.

Section Canvas.

Variables width height : R.

Lemma clamp_within (v : R) :
  - (4 / 10) <= math_clamp v (- (4 / 10)) (4 / 10) <= 4 / 10
  /\ (- (4 / 10) <= v <= 4 / 10 -> math_clamp v (- (4 / 10)) (4 / 10) = v).
Proof.
  unfold math_clamp. reals. split; [|intros Hv]; cases; lra.
Qed.

Lemma wrap_on_canvas (v : Vector.t R) :
  0 <= width -> 0 <= height ->
  0 <= Vector.x (wrap v width height) <= width
  /\ 0 <= Vector.y (wrap v width height) <= height.
Proof.
  intros Hw Hh. unfold wrap. cbn [Vector.x Vector.y]. reals.
  split; cases; lra.
Qed.

Lemma nudged_close (p : Point R) (time : R) (w : World R (Point R)) :
  (forall n, 0 <= rng w n < 1) ->
  Rabs (Vector.x (FixedInvariant.nudged width height p time w) - Vector.x (vel p))
    <= 35 / 1000
  /\ Rabs (Vector.y (FixedInvariant.nudged width height p time w) - Vector.y (vel p))
    <= 35 / 1000.
Proof.
  intros Hr. unfold FixedInvariant.nudged, applyBoundaries, setVel.
  cbn [pos vel Vector.x Vector.y]. reals.
  pose proof (Hr (cursor w)) as H0. pose proof (Hr (S (cursor w))) as H1.
  split.
  - pose proof (SIN_bound (time * (2 / 10) + Vector.y (pos p) * (5 / 10))) as Hs.
    apply Rabs_le. cases; lra.
  - pose proof (COS_bound (time * (2 / 10) + Vector.x (pos p) * (5 / 10))) as Hs.
    apply Rabs_le. cases; lra.
Qed.


(** A point in play: on the canvas, within the speed limit. *)
Definition inPlay (p : Point R) : Prop :=
  (0 <= Vector.x (pos p) <= width /\ 0 <= Vector.y (pos p) <= height)
  /\ (Rabs (Vector.x (vel p)) <= 4 / 10 /\ Rabs (Vector.y (vel p)) <= 4 / 10).


End Canvas.

End IdealFixed.

(* ------------------------------------------------------------------ *)
(** ** The theorems at work on small states *)

Module MidiExamples.
Import Sketch03Midi MidiFrame.

#[local] Existing Instance js64.

Local Open Scope js_scope.

(** A point in the middle of the canvas, of lifespan 60. *)
Definition pointOfAge (a : Binary64.float) : Point Binary64.float :=
  {| pos := Vector.new (ofZ 540) (ofZ 675);
     vel := Vector.new (decimal 1 1) (- decimal 1 1);
     radius := ofZ 3; age := a; lifespan := ofZ 60 |}.

Definition world (l : list (Point Binary64.float))
  : World Binary64.float (Point Binary64.float) :=
  {| points := l; rng := MidiBinary64.lcg; cursor := 0; trace := [] |}.

(** Two points far from their lifespan. *)
Definition twoYoung : World Binary64.float (Point Binary64.float) :=
  world [pointOfAge (ofZ 0); pointOfAge (ofZ 30)].

(** A point one frame short of its lifespan, between two new ones. *)
Definition oneDue : World Binary64.float (Point Binary64.float) :=
  world [pointOfAge (ofZ 0); pointOfAge (decimal 5999 2); pointOfAge (ofZ 0)].

Lemma pass_without_expiry_ages_every_point_witness :
  Forall (fun p => (age p + ofZ 1 / fps >=? lifespan p) = false) (points twoYoung)
  /\ points (exec (forEach (callback None (ofZ 1080) (ofZ 1350) (ofZ 0))) twoYoung)
     = map (fun p => aged (ofZ 1080) (ofZ 1350) p (ofZ 0)) (points twoYoung).
Proof.
  assert (Hall : Forall (fun p => (age p + ofZ 1 / fps >=? lifespan p) = false)
                   (points twoYoung)).
  { apply Forall_cons; [vm_compute; reflexivity|].
    apply Forall_cons; [vm_compute; reflexivity|]. apply Forall_nil. }
  split; [exact Hall|].
  exact (@MidiPass.pass_without_expiry_ages_every_point _ _ None
           (ofZ 1080) (ofZ 1350) (ofZ 0) twoYoung Hall).
Defined.

Lemma pass_with_output_leaves_no_expired_point_witness :
  Forall (fun p => (age p >=? lifespan p) = false) (points oneDue)
  /\ Forall (fun p => (age p >=? lifespan p) = false)
       (points (exec (forEach (callback (Some 0) (ofZ 1080) (ofZ 1350) (ofZ 0)))
                  oneDue)).
Proof.
  assert (Hall : Forall (fun p => (age p >=? lifespan p) = false) (points oneDue)).
  { apply Forall_cons; [vm_compute; reflexivity|].
    apply Forall_cons; [vm_compute; reflexivity|].
    apply Forall_cons; [vm_compute; reflexivity|]. apply Forall_nil. }
  split; [exact Hall|].
  exact (@MidiPass.pass_with_output_leaves_no_expired_point _ _ 0
           (ofZ 1080) (ofZ 1350) (ofZ 0) oneDue Hall).
Defined.

End MidiExamples.

Module FixedExamples.
Import Sketch03 FixedFrame.

#[local] Existing Instance js64.

Local Open Scope js_scope.

Definition pointOfAge (a : Binary64.float) : Point Binary64.float :=
  {| pos := Vector.new (ofZ 540) (ofZ 675);
     vel := Vector.new (decimal 1 1) (- decimal 1 1);
     acc := Vector.new (ofZ 0) (ofZ 0);
     radius := ofZ 3; age := a |}.

Definition world (l : list (Point Binary64.float))
  : World Binary64.float (Point Binary64.float) :=
  {| points := l; rng := FixedBinary64.lcg; cursor := 0; trace := [] |}.

(** Three points one frame short of [POINT_LIFESPAN]. *)
Definition threeDue : World Binary64.float (Point Binary64.float) :=
  world [pointOfAge (decimal 11999 2); pointOfAge (decimal 11999 2);
         pointOfAge (decimal 11999 2)].

Definition twoYoung : World Binary64.float (Point Binary64.float) :=
  world [pointOfAge (ofZ 0); pointOfAge (ofZ 30)].

Definition oneDue : World Binary64.float (Point Binary64.float) :=
  world [pointOfAge (ofZ 0); pointOfAge (decimal 11999 2); pointOfAge (ofZ 0)].

Lemma pass_over_due_points_leaves_the_odd_ones_witness :
  Forall (fun p => (age p + ofZ 1 / fps >=? POINT_LIFESPAN) = true) (points threeDue)
  /\ points (exec (forEach (callback (ofZ 1080) (ofZ 1350) (ofZ 0))) threeDue)
     = odds (points threeDue).
Proof.
  assert (Hall : Forall (fun p => (age p + ofZ 1 / fps >=? POINT_LIFESPAN) = true)
                   (points threeDue)).
  { apply Forall_cons; [vm_compute; reflexivity|].
    apply Forall_cons; [vm_compute; reflexivity|].
    apply Forall_cons; [vm_compute; reflexivity|]. apply Forall_nil. }
  split; [exact Hall|].
  exact (@FixedPass.pass_over_due_points_leaves_the_odd_ones _ _
           (ofZ 1080) (ofZ 1350) (ofZ 0) threeDue Hall).
Defined.

Lemma pass_without_due_points_ages_every_point_witness :
  Forall (fun p => (age p + ofZ 1 / fps >=? POINT_LIFESPAN) = false) (points twoYoung)
  /\ map age (points (exec (forEach (callback (ofZ 1080) (ofZ 1350) (ofZ 0))) twoYoung))
     = map (fun p => age p + ofZ 1 / fps) (points twoYoung).
Proof.
  assert (Hall : Forall (fun p => (age p + ofZ 1 / fps >=? POINT_LIFESPAN) = false)
                   (points twoYoung)).
  { apply Forall_cons; [vm_compute; reflexivity|].
    apply Forall_cons; [vm_compute; reflexivity|]. apply Forall_nil. }
  split; [exact Hall|].
  exact (@FixedPass.pass_without_due_points_ages_every_point _ _
           (ofZ 1080) (ofZ 1350) (ofZ 0) twoYoung Hall).
Defined.

Lemma fixed_pass_leaves_no_expired_point_witness :
  Forall (fun p => (age p >=? POINT_LIFESPAN) = false) (points oneDue)
  /\ Forall (fun p => (age p >=? POINT_LIFESPAN) = false)
       (points (exec (forEach (callback (ofZ 1080) (ofZ 1350) (ofZ 0))) oneDue)).
Proof.
  assert (Hall : Forall (fun p => (age p >=? POINT_LIFESPAN) = false) (points oneDue)).
  { apply Forall_cons; [vm_compute; reflexivity|].
    apply Forall_cons; [vm_compute; reflexivity|].
    apply Forall_cons; [vm_compute; reflexivity|]. apply Forall_nil. }
  split; [exact Hall|].
  exact (@FixedPass.fixed_pass_leaves_no_expired_point _ _
           (ofZ 1080) (ofZ 1350) (ofZ 0) oneDue Hall).
Defined.

End FixedExamples.

Module IdealExamples.

#[local] Existing Instance ideal.

Local Open Scope R_scope.

Lemma half_in_range : forall n : nat, 0 <= (fun _ : nat => 1 / 2) n < 1.
Proof. intros n. lra. Qed.


(** The blank state of the MIDI sketch, the generator stuck at 1/2. *)
Definition blankMidi : World R (Sketch03Midi.Point R) := IdealFacts.still.

Definition midiPoint (a l : R) : Sketch03Midi.Point R :=
  {| Sketch03Midi.pos := Vector.new 1079 (-1);
     Sketch03Midi.vel := Vector.new 2 (-1);
     Sketch03Midi.radius := 3;
     Sketch03Midi.age := a;
     Sketch03Midi.lifespan := l |}.





(** A state whose first point is new and has a lifespan of two frames. *)
Definition shortLived : World R (Sketch03Midi.Point R) :=
  {| points := [midiPoint 0 (1 / 30)]; rng := fun _ => 1 / 2; cursor := 0;
     trace := [] |}.


(** The blank state of the fixed-lifespan sketch, the generator stuck at
    1/2. *)
Definition blankFixed : World R (Sketch03.Point R) :=
  {| points := []; rng := fun _ => 1 / 2; cursor := 0; trace := [] |}.

Definition fixedPoint : Sketch03.Point R :=
  {| Sketch03.pos := Vector.new 540 675;
     Sketch03.vel := Vector.new (4 / 10) (- (4 / 10));
     Sketch03.acc := Vector.new 0 0;
     Sketch03.radius := 3;
     Sketch03.age := 0 |}.



End IdealExamples.
